(** * Scalar ARMA(p, q) processes: a model of [quantecon/arma.py]

    The class [ARMA] keeps the raw parameters [phi], [theta], [sigma] and two
    derived coefficient arrays, [ar_poly] and [ma_poly], which [set_params]
    recomputes at construction and in both property setters.  The four query
    methods hand these arrays to NumPy and SciPy routines; the plotting
    methods draw what the query methods return.

    Python numbers are read in exact arithmetic: the normalisation code is
    generic in the element type (it only negates and inserts the constants 0
    and 1), the numerical methods are stated over the real numbers. *)

From Stdlib Require Import Reals List ZArith Lia Lra Bool.
From Stdlib Require String.
Import ListNotations.
Import String.StringSyntax.
Delimit Scope string_scope with string.

Set Implicit Arguments.

(** ** Exceptions *)

(** The two Python exceptions the library routines below can raise. *)
Inductive exn : Type :=
| IndexError
| ValueError.

Inductive result (A : Type) : Type :=
| Ok (a : A)
| Raise (e : exn).

Arguments Ok {A} a.
Arguments Raise {A} e.

Definition bind {A B : Type} (r : result A) (k : A -> result B) : result B :=
  match r with
  | Ok a => k a
  | Raise e => Raise e
  end.

Notation "x <- r ;; k" := (bind r (fun x => k))
  (at level 61, r at next level, right associativity).

Definition succeeds {A : Type} (r : result A) : Prop :=
  exists a, r = Ok a.

Definition raises {A : Type} (r : result A) : Prop :=
  exists e, r = Raise e.

(** ** Element types *)

(** What [set_params] needs of the element type of an array: unary minus and
    the constants 0 and 1. *)
Class Dtype (T : Type) : Type := {
  negative : T -> T;
  zero : T;
  one : T
}.

#[export] Instance R_dtype : Dtype R := {
  negative := Ropp;
  zero := 0%R;
  one := 1%R
}.

#[export] Instance Z_dtype : Dtype Z := {
  negative := Z.opp;
  zero := 0%Z;
  one := 1%Z
}.

(** ** The NumPy array functions used by [set_params] *)

Module np.
Section Arrays.
Context {T : Type} `{Dtype T}.

(** A parameter as the caller passes it: a Python scalar or a sequence. *)
Inductive array_like : Type :=
| scalar (x : T)
| sequence (l : list T).

(** An array of rank 0 or of rank 1. *)
Inductive ndarray : Type :=
| arr0 (x : T)
| arr1 (l : list T).

(** [np.asarray(x)]: a scalar becomes an array of rank 0. *)
Definition asarray (x : array_like) : ndarray :=
  match x with
  | scalar v => arr0 v
  | sequence l => arr1 l
  end.

(** [np.array(v)] on a Python scalar. *)
Definition array (v : T) : ndarray := arr0 v.

(** Unary minus on an array, element by element. *)
Definition neg (a : ndarray) : ndarray :=
  match a with
  | arr0 v => arr0 (negative v)
  | arr1 l => arr1 (map negative l)
  end.

(** [a.ravel()] *)
Definition ravel (a : ndarray) : list T :=
  match a with
  | arr0 v => [v]
  | arr1 l => l
  end.

(** [np.insert(a, 0, v)] without an axis: the array is flattened first, so
    the result always has rank 1. *)
Definition insert0 (a : ndarray) (v : T) : list T :=
  v :: ravel a.

(** [np.zeros(n)] *)
Definition zeros (n : nat) : list T := repeat zero n.

(** [np.hstack((a, b))] on arrays of rank 1. *)
Definition hstack (a b : list T) : list T := a ++ b.

End Arrays.
End np.

(** ** The class, its constructor and its setters *)

Section Model.
Context {T : Type} `{Dtype T}.

Record ARMA : Type := mkARMA {
  _phi : np.array_like (T := T);
  _theta : np.array_like (T := T);
  sigma : T;
  ar_poly : list T;
  ma_poly : list T
}.

(** [ARMA.set_params] *)
Definition set_params (self : ARMA) : ARMA :=
  (* set up ma_poly *)
  let ma_poly0 := np.asarray (_theta self) in
  let self_ma_poly := np.insert0 ma_poly0 one in
  (* set up ar_poly *)
  let ar_poly0 :=
    match _phi self with
    | np.scalar v => (* np.isscalar(self._phi) *) np.array (negative v)
    | np.sequence _ => np.neg (np.asarray (_phi self))
    end in
  let self_ar_poly := np.insert0 ar_poly0 one in
  (* pad ar_poly with zeros if required *)
  let self_ar_poly :=
    if (length self_ar_poly <? length self_ma_poly)%nat then
      let temp := np.zeros (length self_ma_poly - length self_ar_poly) in
      np.hstack self_ar_poly temp
    else self_ar_poly in
  {| _phi := _phi self; _theta := _theta self; sigma := sigma self;
     ar_poly := self_ar_poly; ma_poly := self_ma_poly |}.

(** [ARMA.__init__]: the two arrays do not exist before [set_params] has
    run; the record starts with empty ones, which [set_params] replaces. *)
Definition __init__ (phi theta : np.array_like) (sigma0 : T) : ARMA :=
  set_params {| _phi := phi; _theta := theta; sigma := sigma0;
                ar_poly := []; ma_poly := [] |}.

(** The defaults of the constructor: [theta=0] and [sigma=1]. *)
Definition default_theta : np.array_like (T := T) := np.scalar zero.

Definition default_sigma : T := one.

(** The property [phi]: getter and setter. *)
Definition phi (self : ARMA) : np.array_like := _phi self.

Definition phi_setter (self : ARMA) (new_value : np.array_like) : ARMA :=
  set_params {| _phi := new_value; _theta := _theta self;
                sigma := sigma self;
                ar_poly := ar_poly self; ma_poly := ma_poly self |}.

(** The property [theta]: getter and setter. *)
Definition theta (self : ARMA) : np.array_like := _theta self.

Definition theta_setter (self : ARMA) (new_value : np.array_like) : ARMA :=
  set_params {| _phi := _phi self; _theta := new_value;
                sigma := sigma self;
                ar_poly := ar_poly self; ma_poly := ma_poly self |}.

(** [sigma] is a plain attribute: assigning it recomputes nothing. *)
Definition sigma_assign (self : ARMA) (new_value : T) : ARMA :=
  {| _phi := _phi self; _theta := _theta self; sigma := new_value;
     ar_poly := ar_poly self; ma_poly := ma_poly self |}.

(** The models a caller can obtain: built by the constructor, then changed
    through the setters and by assignments to [sigma]. *)
Inductive reachable : ARMA -> Prop :=
| reach_init : forall p t s, reachable (__init__ p t s)
| reach_phi : forall m v, reachable m -> reachable (phi_setter m v)
| reach_theta : forall m v, reachable m -> reachable (theta_setter m v)
| reach_sigma : forall m s, reachable m -> reachable (sigma_assign m s).

(** *** The normal form in the words of the specification *)

(** A scalar is promoted to a sequence of length one. *)
Definition as_sequence (x : np.array_like) : list T :=
  match x with
  | np.scalar v => [v]
  | np.sequence l => l
  end.

(** [1] followed by the moving-average coefficients. *)
Definition spec_ma_poly (theta0 : np.array_like) : list T :=
  [one] ++ as_sequence theta0.

(** Append one zero at a time until the array is as long as [n]. *)
Fixpoint pad_until (fuel : nat) (n : nat) (a : list T) : list T :=
  match fuel with
  | O => a
  | S fuel' =>
      if (length a <? n)%nat then pad_until fuel' n (a ++ [zero]) else a
  end.

(** [1] followed by the negated autoregressive coefficients, padded on the
    right while it is shorter than the moving-average array. *)
Definition spec_ar_poly (phi0 theta0 : np.array_like) : list T :=
  let base := [one] ++ map negative (as_sequence phi0) in
  pad_until (length (spec_ma_poly theta0)) (length (spec_ma_poly theta0)) base.

End Model.

Arguments ARMA T : clear implicits.

(** ** Complex numbers in exact arithmetic *)

Open Scope R_scope.

Record complex : Type := mkC { real : R; imag : R }.

Definition C0 : complex := mkC 0 0.

(** A real number used where a complex one is expected. *)
Definition of_real (x : R) : complex := mkC x 0.

Definition Cadd (x y : complex) : complex :=
  mkC (real x + real y) (imag x + imag y).

Definition Cmul (x y : complex) : complex :=
  mkC (real x * real y - imag x * imag y) (real x * imag y + imag x * real y).

(** The quotient [x / y] for [y] different from zero.  At [y = 0], where
    NumPy stores nan or inf, it is the total division of the reals; the
    statements about quotients below assume the denominator not zero. *)
Definition Cdiv (x y : complex) : complex :=
  let d := real y * real y + imag y * imag y in
  mkC ((real x * real y + imag x * imag y) / d)
      ((imag x * real y - real x * imag y) / d).

(** [numpy.conj] *)
Definition conj (x : complex) : complex := mkC (real x) (- imag x).

(** [exp(1j * t)] for a real [t]. *)
Definition Cexp_i (t : R) : complex := mkC (cos t) (sin t).

(** The squared modulus. *)
Definition Cnorm2 (x : complex) : R := real x * real x + imag x * imag x.

Definition Csum (l : list complex) : complex := fold_right Cadd C0 l.

(** ** Python and NumPy helpers on arrays of rank 1 *)

(** [a[:stop]]: a negative [stop] counts from the end, and the bounds are
    clipped to the array. *)
Definition slice_to {A : Type} (stop : Z) (a : list A) : list A :=
  if (0 <=? stop)%Z then firstn (Z.to_nat stop) a
  else firstn (Z.to_nat (Z.of_nat (length a) + stop)) a.

(** [a[0] = v] *)
Definition setitem0 {A : Type} (a : list A) (v : A) : result (list A) :=
  match a with
  | [] => Raise IndexError
  | _ :: a' => Ok (v :: a')
  end.

(** [np.linspace(0, stop, n, endpoint=False)] *)
Definition linspace_open (stop : R) (n : nat) : list R :=
  let step := stop / INR n in
  map (fun k => INR k * step) (seq 0 n).

(** [np.polyval(p, x)]: Horner's rule, highest degree first. *)
Definition polyval (p : list R) (x : complex) : complex :=
  fold_left (fun y pv => Cadd (Cmul y x) (of_real pv)) p C0.

(** [np.fft.ifft(a)]: entry [m] is [(1/n) * sum_k a[k] * exp(2j*pi*m*k/n)];
    an empty input is refused. *)
Definition ifft_entry (a : list complex) (m : nat) : complex :=
  let n := length a in
  Cmul (of_real (/ INR n))
       (Csum (map (fun k => Cmul (nth k a C0)
                                 (Cexp_i (2 * PI * INR m * INR k / INR n)))
                  (seq 0 n))).

Definition ifft (a : list complex) : result (list complex) :=
  match a with
  | [] => Raise ValueError
  | _ :: _ => Ok (map (ifft_entry a) (seq 0 (length a)))
  end.

(** The global generator of [np.random], seen through the standard normal
    variates it will deliver from its current state on. *)
Definition RandomState : Type := nat -> R.

(** [np.random.randn(n, 1)]: the next [n] variates; the generator moves on. *)
Definition randn (n : nat) (g : RandomState) : list R * RandomState :=
  (map g (seq 0 n), fun k => g (n + k)%nat).

(** [np.linspace(0.0, stop, num=n)], the end point included: in exact
    arithmetic the last entry [(n - 1) * step] is [stop] itself, and a
    single entry is the start point. *)
Definition linspace_closed (stop : R) (n : nat) : list R :=
  let step := stop / INR (n - 1) in
  map (fun k => INR k * step) (seq 0 n).

(** [a[-1]] *)
Definition getitem_last {A : Type} (d : A) (a : list A) : result A :=
  match a with
  | [] => Raise IndexError
  | _ :: _ => Ok (last a d)
  end.

(** [np.searchsorted(a, v)] on a sorted array: the number of entries
    below [v]. *)
Definition searchsorted (a : list R) (v : R) : nat :=
  length (filter (fun x => if Rlt_dec x v then true else false) a).

(** [i.clip(lo, hi)] *)
Definition clip (i lo hi : nat) : nat := Nat.min (Nat.max i lo) hi.

(** [scipy.interpolate.interp1d(x, y, bounds_error=True)] at one point:
    linear interpolation between the two neighbouring samples; a point
    outside the range of [x] is refused. *)
Definition interp1d_at (x y : list R) (x_new : R) : result R :=
  if Rlt_dec x_new (hd 0 x) then Raise ValueError
  else if Rlt_dec (last x 0) x_new then Raise ValueError
  else
    let i := clip (searchsorted x x_new) 1 (length x - 1) in
    let lo := (i - 1)%nat in
    let hi := i in
    let x_lo := nth lo x 0 in
    let x_hi := nth hi x 0 in
    let y_lo := nth lo y 0 in
    let y_hi := nth hi y 0 in
    let slope := (y_hi - y_lo) / (x_hi - x_lo) in
    Ok (slope * (x_new - x_lo) + y_lo).

Fixpoint traverse {A B : Type} (f : A -> result B) (l : list A)
  : result (list B) :=
  match l with
  | [] => Ok []
  | a :: l' => b <- f a ;; bs <- traverse f l' ;; Ok (b :: bs)
  end.

(** [interp1d(x, y, bounds_error=True)(x_new)].  The two arrays must be
    equally long and have at least two entries: with fewer the SciPy
    releases this code was written for raise a [ValueError] (later ones
    interpolate over an interval of length zero and return nan). *)
Definition interp1d (x y x_new : list R) : result (list R) :=
  if negb (length x =? length y)%nat then Raise ValueError
  else if (length x <? 2)%nat then Raise ValueError
  else traverse (interp1d_at x y) x_new.

(** ** The [scipy.signal] routines the methods call

    Modelled after the library's implementation, for systems with one input
    and one output given as a transfer function [(num, den, dt)] with
    [dt = 1]. *)

Module signal.

Fixpoint dot (a b : list R) : R :=
  match a, b with
  | x :: a', y :: b' => x * y + dot a' b'
  | _, _ => 0
  end.

Definition mat_vec (m : list (list R)) (x : list R) : list R :=
  map (fun row => dot row x) m.

Fixpoint vec_add (a b : list R) : list R :=
  match a, b with
  | x :: a', y :: b' => (x + y) :: vec_add a' b'
  | _, _ => []
  end.

Definition vec_scale (k : R) (a : list R) : list R := map (Rmult k) a.

(** [np.eye(n, m)] *)
Definition eye (n m : nat) : list (list R) :=
  map (fun i => map (fun j => if (i =? j)%nat then 1 else 0) (seq 0 m))
      (seq 0 n).

(** [while a[0] == 0.0 and len(a) > 1: a = a[1:]] *)
Fixpoint strip_zeros (a : list R) : list R :=
  match a with
  | x :: ((_ :: _) as a') => if Req_dec_T x 0 then strip_zeros a' else a
  | _ => a
  end.

(** [allclose(0, x, atol=1e-14)] on one entry, with NumPy's default
    relative tolerance. *)
Definition close_to_zero (x : R) : bool :=
  if Rle_dec (Rabs (0 - x)) (/ 10 ^ 14 + / 10 ^ 5 * Rabs x)
  then true else false.

(** [while allclose(0, b[0], atol=1e-14) and len(b) > 1: b = b[1:]] *)
Fixpoint strip_small (b : list R) : list R :=
  match b with
  | x :: ((_ :: _) as b') => if close_to_zero x then strip_small b' else b
  | _ => b
  end.

(** [normalize(b, a)]: leading zeros of the denominator removed, both
    arrays divided by the leading denominator coefficient, then leading
    negligible numerator coefficients removed. *)
Definition normalize (b a : list R) : list R * list R :=
  let a := strip_zeros a in
  let a0 := hd 0 a in
  let outb := map (fun x => x * 1 / a0) b in
  let outa := map (fun x => x * 1 / a0) a in
  (strip_small outb, outa).

(** A state-space system with one input and one output. *)
Record StateSpace : Type := mkSS {
  ssA : list (list R);
  ssB : list R;
  ssC : list R;
  ssD : R
}.

(** [tf2ss(num, den)]: the controller canonical form.  A numerator longer
    than the denominator is refused; a shorter one is padded with zeros on
    the left. *)
Definition tf2ss (num den : list R) : result StateSpace :=
  let '(num, den) := normalize num den in
  let M := length num in
  let K := length den in
  if (K <? M)%nat then Raise ValueError
  else
    let num := np.zeros (K - M) ++ num in
    let D := hd 0 num in
    if (K =? 1)%nat then Ok (mkSS [] [] [] D)
    else
      let frow := map Ropp (tl den) in
      let A := frow :: eye (K - 2) (K - 1) in
      let B := map (hd 0) (eye (K - 1) 1) in
      let C := vec_add (tl num) (map Ropp (vec_scale (hd 0 num) (tl den))) in
      Ok (mkSS A B C D).

(** The loop of [dlsim]: from state [x], one output per input sample,
    [y = C x + D u] and then [x = A x + B u]. *)
Fixpoint dlsim_loop (ss : StateSpace) (x : list R) (u : list R) : list R :=
  match u with
  | [] => []
  | ui :: u' =>
      (dot (ssC ss) x + ssD ss * ui)
        :: dlsim_loop ss (vec_add (mat_vec (ssA ss) x) (vec_scale ui (ssB ss))) u'
  end.

(** [dlsim((num, den, 1), u)[1]], flattened: the output on the input
    samples [u] from the zero state.  The last output is computed from the
    last input sample outside the loop, so an empty input is an index
    error. *)
Definition dlsim (num den : list R) (u : list R) : result (list R) :=
  ss <- tf2ss num den ;;
  match u with
  | [] => Raise IndexError
  | _ :: _ => Ok (dlsim_loop ss (np.zeros (length (ssA ss))) u)
  end.

(** [dlsim((num, den, 1), u, t=t)[1]], flattened: the call with a time
    grid.  The number of output samples is read off the last time, the
    input is resampled over the output times by linear interpolation, and
    the loop runs on the resampled input. *)
Definition dlsim_t (num den : list R) (u t : list R) : result (list R) :=
  ss <- tf2ss num den ;;
  stoptime <- getitem_last 0 t ;;
  let out_samples := Z.to_nat (Int_part (stoptime / 1) + 1) in
  let tout := linspace_closed stoptime out_samples in
  u_dt <- interp1d t u tout ;;
  match u_dt with
  | [] => Raise IndexError
  | _ :: _ => Ok (dlsim_loop ss (np.zeros (length (ssA ss))) u_dt)
  end.

(** [dimpulse((num, den, 1), n=n)[1][0]], flattened: the time grid
    [np.linspace(0, n * dt, n, endpoint=False)], [n] zero samples, the
    first one set to 1, then [dlsim] on that grid. *)
Definition dimpulse (num den : list R) (n : nat) : result (list R) :=
  let time_steps := linspace_open (INR n * 1) n in
  let u := np.zeros n in
  u <- setitem0 u 1 ;;
  dlsim_t num den u time_steps.

(** The [worN] argument of [freqz]: a number of points or the
    frequencies themselves. *)
Inductive worN_arg : Type :=
| worN_int (n : nat)
| worN_array (w : list R).

(** [freqz(b, a, worN, whole)]: the frequencies and the response
    [polyval(b[::-1], zm1) / polyval(a[::-1], zm1)] at
    [zm1 = exp(-1j * w)]. *)
Definition freqz_at (b a : list R) (w : R) : complex :=
  let zm1 := Cexp_i (- w) in
  Cdiv (polyval (rev b) zm1) (polyval (rev a) zm1).

Definition freqz (b a : list R) (worN : worN_arg) (whole : bool)
  : list R * list complex :=
  let lastpoint := if whole then 2 * PI else PI in
  let w :=
    match worN with
    | worN_int n => linspace_open lastpoint n
    | worN_array w => w
    end in
  (w, map (freqz_at b a) w).

End signal.

(** ** The query methods *)

(** [ARMA.impulse_response] *)
Definition impulse_response (self : ARMA R) (impulse_length : nat)
  : result (list R) :=
  psi <- signal.dimpulse (ma_poly self) (ar_poly self) impulse_length ;;
  Ok psi.

(** [ARMA.spectral_density] *)
Definition spectral_density (self : ARMA R) (two_pi : bool)
  (res : signal.worN_arg) : list R * list complex :=
  let '(w, h) := signal.freqz (ma_poly self) (ar_poly self) res two_pi in
  let spect :=
    map (fun hk => Cmul (Cmul hk (conj hk)) (of_real (sigma self ^ 2))) h in
  (w, spect).

(** The default of [res]. *)
Definition default_res : nat := 1200.

(** [ARMA.autocovariance] *)
Definition autocovariance (self : ARMA R) (num_autocov : Z)
  : result (list R) :=
  let spect := snd (spectral_density self true (signal.worN_int default_res)) in
  acov <- ifft spect ;;
  let acov := map real acov in
  Ok (slice_to num_autocov acov).

(** [ARMA.simulation], as a function of the state of the global generator:
    the variates are drawn before the filter runs. *)
Definition simulation (self : ARMA R) (ts_length : nat) (g : RandomState)
  : result (list R) * RandomState :=
  let '(z, g') := randn ts_length g in
  let u := map (fun zi => zi * sigma self) z in
  (signal.dlsim (ma_poly self) (ar_poly self) u, g').

(** ** Reference notions for the statements *)

(** The polynomial with coefficients [p], lowest degree first, at [x]. *)
Fixpoint poly_eval (p : list R) (x : complex) : complex :=
  match p with
  | [] => C0
  | c :: p' => Cadd (of_real c) (Cmul x (poly_eval p' x))
  end.

(** The frequency response [H(w)]: the numerator polynomial over the
    denominator polynomial, both in [z^-1], at the point [exp(-1j * w)] of
    the unit circle. *)
Definition transfer (b a : list R) (w : R) : complex :=
  Cdiv (poly_eval b (Cexp_i (- w))) (poly_eval a (Cexp_i (- w))).

(** The division in [freqz] has a value at the frequency [w] when the
    denominator polynomial is not zero at [exp(-1j * w)]; where it is zero
    NumPy stores nan or inf. *)
Definition response_defined (a : list R) (w : R) : Prop :=
  polyval (rev a) (Cexp_i (- w)) <> C0.

(** The response has a value at each of [n] frequencies evenly spaced
    over the full circle. *)
Definition defined_on_grid (self : ARMA R) (n : nat) : Prop :=
  forall k, (k < n)%nat ->
    response_defined (ar_poly self) (INR k * (2 * PI / INR n)).

Definition Rsum (l : list R) : R := fold_right Rplus 0 l.

(** The spectral density on the full circle at the default resolution, as
    [autocovariance] requests it. *)
Definition default_spect (self : ARMA R) : list complex :=
  snd (spectral_density self true (signal.worN_int default_res)).

(** The inverse discrete Fourier transform of a sequence of [n] values:
    entry [m] is [(1/n) * sum_k a[k] * exp(2j*pi*m*k/n)]. *)
Definition inverse_dft (a : list complex) : list complex :=
  map (ifft_entry a) (seq 0 (length a)).

(** The power [|H(w_k)|^2 * sigma^2] at the [k]-th of [n] frequencies evenly
    spaced over the full circle. *)
Definition power_at (self : ARMA R) (n k : nat) : R :=
  Cnorm2 (transfer (ma_poly self) (ar_poly self) (INR k * (2 * PI / INR n)))
  * sigma self ^ 2.

(** The white-noise model [ARMA(phi=0, theta=0, sigma=1)]. *)
Definition white_noise : ARMA R := __init__ (np.scalar 0) (np.scalar 0) 1.

(** A state of the generator whose next variates are 0, 1, 2, ... *)
Definition ramp : RandomState := fun k => INR k.

(** ** Plotting

    The plotting methods talk to matplotlib.  The model records every call
    made to it, in order and with its arguments, and takes each call to
    return normally; what matplotlib draws is outside the model.  Axes are
    numbered in the order of their creation; the [ax] argument of a method
    is [None] or one of them. *)

Inductive call : Type :=
| plt_subplots (ax : nat)
| plt_subplots_grid (num_rows num_cols : nat) (figsize : R * R)
    (axes : list nat)
| plt_subplots_adjust (hspace : R)
| plt_show
| ax_set_title (ax : nat) (label : String.string)
| ax_stem (ax : nat) (x : list nat) (y : list R)
| ax_semilogy (ax : nat) (x : list R) (y : list complex)
| ax_plot (ax : nat) (y : list R)
| ax_set_xlim_xmin (ax : nat) (xmin : R)
| ax_set_xlim (ax : nat) (lo hi : R)
| ax_set_ylim (ax : nat) (lo hi : R)
| ax_set_ylim_complex (ax : nat) (lo : R) (hi : complex)
| ax_set_xlabel (ax : nat) (label : String.string)
| ax_set_ylabel (ax : nat) (label : String.string).

(** What a plotting method can change: the calls made so far, the number
    of axes created, and the global random generator. *)
Record World : Type := mkWorld {
  calls : list call;
  next_axes : nat;
  generator : RandomState
}.

Inductive py_exn : Type :=
| AttributeError
| LibraryError (e : exn).

Inductive outcome (A : Type) : Type :=
| Returned (a : A)
| Raised (e : py_exn).

Arguments Returned {A} a.
Arguments Raised {A} e.

Definition Py (A : Type) : Type := World -> outcome A * World.

Definition ret {A : Type} (a : A) : Py A := fun w => (Returned a, w).

Definition raise {A : Type} (e : py_exn) : Py A := fun w => (Raised e, w).

Definition bindP {A B : Type} (c : Py A) (k : A -> Py B) : Py B :=
  fun w =>
    match c w with
    | (Returned a, w') => k a w'
    | (Raised e, w') => (Raised e, w')
    end.

Notation "x <~ c ;; k" := (bindP c (fun x => k))
  (at level 61, c at next level, right associativity).

Notation "'run' c ;; k" := (bindP c (fun _ => k))
  (at level 61, c at next level, right associativity).

(** A library routine that returns or raises. *)
Definition lift {A : Type} (r : result A) : Py A :=
  match r with
  | Ok a => ret a
  | Raise e => raise (LibraryError e)
  end.

Definition record (c : call) : Py unit :=
  fun w => (Returned tt, mkWorld (calls w ++ [c]) (next_axes w) (generator w)).

(** [fig, ax = plt.subplots()] *)
Definition subplots : Py nat :=
  fun w =>
    let ax := next_axes w in
    (Returned ax,
     mkWorld (calls w ++ [plt_subplots ax]) (S ax) (generator w)).

(** [fig, axes = plt.subplots(num_rows, num_cols, figsize=figsize)], with
    [axes.flatten()] as the result. *)
Definition subplots_grid (num_rows num_cols : nat) (figsize : R * R)
  : Py (list nat) :=
  fun w =>
    let axes := seq (next_axes w) (num_rows * num_cols) in
    (Returned axes,
     mkWorld (calls w ++ [plt_subplots_grid num_rows num_cols figsize axes])
             (next_axes w + num_rows * num_cols) (generator w)).

(** A method call [ax.method(...)]: on [None] the attribute lookup
    fails. *)
Definition method (ax : option nat) (c : nat -> call) : Py unit :=
  match ax with
  | None => raise AttributeError
  | Some a => record (c a)
  end.

(** The built-in [min] and [max] on a sequence of numbers. *)
Definition py_min (l : list R) : result R :=
  match l with
  | [] => Raise ValueError
  | x :: t => Ok (fold_left (fun m y => if Rlt_dec y m then y else m) t x)
  end.

Definition py_max (l : list R) : result R :=
  match l with
  | [] => Raise ValueError
  | x :: t => Ok (fold_left (fun m y => if Rlt_dec m y then y else m) t x)
  end.

(** [np.max] on a complex array: NumPy orders complex numbers by real
    part, then by imaginary part. *)
Definition complex_lt (x y : complex) : bool :=
  if Rlt_dec (real x) (real y) then true
  else if Req_dec_T (real x) (real y)
       then (if Rlt_dec (imag x) (imag y) then true else false)
       else false.

Definition np_max (l : list complex) : result complex :=
  match l with
  | [] => Raise ValueError
  | x :: t => Ok (fold_left (fun m y => if complex_lt m y then y else m) t x)
  end.

(** A call [self.simulation(ts_length)] in the world.  The method has no
    argument but the model and the length: the variates come from the
    global generator of [np.random], which the call moves. *)
Definition simulation_call (self : ARMA R) (ts_length : nat)
  : Py (list R) :=
  fun w =>
    let '(r, g') := simulation self ts_length (generator w) in
    let w' := mkWorld (calls w) (next_axes w) g' in
    match r with
    | Ok vals => (Returned vals, w')
    | Raise e => (Raised (LibraryError e), w')
    end.

(** [if show: fig, ax = plt.subplots()] *)
Definition axes_to_draw_on (ax : option nat) (show : bool)
  : Py (option nat) :=
  if show then a <~ subplots ;; ret (Some a) else ret ax.

(** [if show: plt.show()] *)
Definition show_if (show : bool) : Py unit :=
  if show then record plt_show else ret tt.

(** [ARMA.plot_impulse_response] *)
Definition plot_impulse_response (self : ARMA R) (ax : option nat)
  (show : bool) : Py unit :=
  ax <~ axes_to_draw_on ax show ;;
  run method ax (fun a => ax_set_title a "Impulse response"%string) ;;
  yi <~ lift (impulse_response self 30) ;;
  run method ax (fun a => ax_stem a (seq 0 (length yi)) yi) ;;
  run method ax (fun a => ax_set_xlim_xmin a (- (1 / 2))) ;;
  lo <~ lift (py_min yi) ;;
  hi <~ lift (py_max yi) ;;
  run method ax (fun a => ax_set_ylim a (lo - 1 / 10) (hi + 1 / 10)) ;;
  run method ax (fun a => ax_set_xlabel a "time"%string) ;;
  run method ax (fun a => ax_set_ylabel a "response"%string) ;;
  show_if show.

(** [ARMA.plot_spectral_density] *)
Definition plot_spectral_density (self : ARMA R) (ax : option nat)
  (show : bool) : Py unit :=
  ax <~ axes_to_draw_on ax show ;;
  run method ax (fun a => ax_set_title a "Spectral density"%string) ;;
  let '(w, spect) :=
    spectral_density self false (signal.worN_int default_res) in
  run method ax (fun a => ax_semilogy a w spect) ;;
  run method ax (fun a => ax_set_xlim a 0 PI) ;;
  top <~ lift (np_max spect) ;;
  run method ax (fun a => ax_set_ylim_complex a 0 top) ;;
  run method ax (fun a => ax_set_xlabel a "frequency"%string) ;;
  run method ax (fun a => ax_set_ylabel a "spectrum"%string) ;;
  show_if show.

(** [ARMA.plot_autocovariance] *)
Definition plot_autocovariance (self : ARMA R) (ax : option nat)
  (show : bool) : Py unit :=
  ax <~ axes_to_draw_on ax show ;;
  run method ax (fun a => ax_set_title a "Autocovariance"%string) ;;
  acov <~ lift (autocovariance self 16) ;;
  run method ax (fun a => ax_stem a (seq 0 (length acov)) acov) ;;
  run method ax
    (fun a => ax_set_xlim a (- (1 / 2)) (INR (length acov) - 1 / 2)) ;;
  run method ax (fun a => ax_set_xlabel a "time"%string) ;;
  run method ax (fun a => ax_set_ylabel a "autocovariance"%string) ;;
  show_if show.

(** [ARMA.plot_simulation] *)
Definition plot_simulation (self : ARMA R) (ax : option nat)
  (show : bool) : Py unit :=
  ax <~ axes_to_draw_on ax show ;;
  run method ax (fun a => ax_set_title a "Sample path"%string) ;;
  x_out <~ simulation_call self 90 ;;
  run method ax (fun a => ax_plot a x_out) ;;
  run method ax (fun a => ax_set_xlabel a "time"%string) ;;
  run method ax (fun a => ax_set_ylabel a "state space"%string) ;;
  show_if show.

(** [for plot_func, ax in zip(plot_functions, axes): plot_func(ax,
    show=False)] *)
Fixpoint plot_each (fs : list (option nat -> bool -> Py unit))
  (axes : list nat) : Py unit :=
  match fs, axes with
  | plot_func :: fs', ax :: axes' =>
      run plot_func (Some ax) false ;; plot_each fs' axes'
  | _, _ => ret tt
  end.

(** [ARMA.quad_plot] *)
Definition quad_plot (self : ARMA R) : Py unit :=
  let num_rows := 2%nat in
  let num_cols := 2%nat in
  axes <~ subplots_grid num_rows num_cols (12, 8) ;;
  run record (plt_subplots_adjust (4 / 10)) ;;
  let plot_functions :=
    [plot_impulse_response self; plot_spectral_density self;
     plot_autocovariance self; plot_simulation self] in
  run plot_each plot_functions axes ;;
  record plt_show.

(** * Properties *)

(** ** Normalisation: [set_params], the constructor and the setters *)

Section NormalisationFacts.
Context {T : Type} `{Dtype T}.

Local Open Scope nat_scope.

Lemma pad_until_repeat (fuel n : nat) (a : list T) :
  n - length a <= fuel ->
  pad_until fuel n a = a ++ repeat zero (n - length a).
Proof.
  revert a; induction fuel as [|fuel IH]; intros a Hfuel; simpl.
  - replace (n - length a) with 0 by lia. now rewrite app_nil_r.
  - destruct (Nat.ltb_spec (length a) n) as [Hlt|Hge].
    + rewrite IH by (rewrite length_app; simpl; lia).
      rewrite length_app; simpl.
      replace (n - length a) with (S (n - (length a + 1))) by lia.
      simpl. now rewrite <- app_assoc.
    + replace (n - length a) with 0 by lia. now rewrite app_nil_r.
Qed.

Lemma insert0_asarray (x : np.array_like) (v : T) :
  np.insert0 (np.asarray x) v = v :: as_sequence x.
Proof. now destruct x. Qed.

Lemma ma_poly_set_params (self : ARMA T) :
  ma_poly (set_params self) = spec_ma_poly (_theta self).
Proof. unfold set_params; simpl. apply insert0_asarray. Qed.

Lemma ar_poly_set_params (self : ARMA T) :
  ar_poly (set_params self) = spec_ar_poly (_phi self) (_theta self).
Proof.
  unfold set_params, spec_ar_poly, spec_ma_poly. cbn [ar_poly].
  rewrite pad_until_repeat by (simpl; lia).
  unfold np.hstack, np.zeros.
  destruct (_phi self) as [v|l], (_theta self) as [w|l'];
    cbn [np.insert0 np.asarray np.array np.neg np.ravel as_sequence
         app map length];
    match goal with
    | |- (if ?a <? ?b then _ else _) = _ =>
        destruct (Nat.ltb_spec a b) as [Hlt|Hge]
    end;
    try reflexivity;
    match goal with
    | |- context [repeat zero (?a - ?b)] =>
        replace (a - b) with 0 by lia
    end;
    simpl; now rewrite ?app_nil_r.
Qed.

Lemma params_set_params (self : ARMA T) :
  _phi (set_params self) = _phi self
  /\ _theta (set_params self) = _theta self
  /\ sigma (set_params self) = sigma self.
Proof. now unfold set_params. Qed.

(** [set_params] reads the raw parameters only. *)
Lemma set_params_ext (a b : ARMA T) :
  _phi a = _phi b -> _theta a = _theta b -> sigma a = sigma b ->
  set_params a = set_params b.
Proof. intros Hp Ht Hs. unfold set_params. now rewrite Hp, Ht, Hs. Qed.

Lemma set_params_idem (self : ARMA T) :
  set_params (set_params self) = set_params self.
Proof. now apply set_params_ext. Qed.

(** In every reachable model the two arrays are the ones [set_params]
    computes from the current parameters. *)
Lemma reachable_fixed (m : ARMA T) :
  reachable m -> set_params m = m.
Proof.
  induction 1 as [p t s|m v _ _|m v _ _|m s _ IH].
  - apply set_params_idem.
  - apply set_params_idem.
  - apply set_params_idem.
  - rewrite <- IH at 2. now unfold sigma_assign, set_params.
Qed.

Lemma spec_ar_poly_length (p t : np.array_like) :
  length (spec_ar_poly p t)
  = Nat.max (S (length (as_sequence p))) (S (length (as_sequence t))).
Proof.
  unfold spec_ar_poly. rewrite pad_until_repeat by (simpl; lia).
  rewrite length_app, repeat_length. simpl. rewrite length_map. lia.
Qed.

Lemma spec_ar_poly_head (p t : np.array_like) :
  exists rest, spec_ar_poly p t = one :: rest.
Proof.
  unfold spec_ar_poly. rewrite pad_until_repeat by (simpl; lia).
  simpl. eauto.
Qed.

(** C1: at construction and in both setters, [ma_poly] is [1] followed
    by [theta] and [ar_poly] is [1] followed by the negated [phi], padded
    with zeros on the right until it is as long as [ma_poly]; a scalar
    parameter counts as a sequence of length one. *)
Theorem set_params_normal_form :
  (forall p t s,
      ma_poly (__init__ p t s) = spec_ma_poly t
      /\ ar_poly (__init__ p t s) = spec_ar_poly p t)
  /\ (forall (m : ARMA T) v,
        ma_poly (phi_setter m v) = spec_ma_poly (_theta m)
        /\ ar_poly (phi_setter m v) = spec_ar_poly v (_theta m))
  /\ (forall (m : ARMA T) v,
        ma_poly (theta_setter m v) = spec_ma_poly v
        /\ ar_poly (theta_setter m v) = spec_ar_poly (_phi m) v).
Proof.
  repeat split; intros;
    unfold __init__, phi_setter, theta_setter;
    first [ now rewrite ma_poly_set_params | now rewrite ar_poly_set_params ].
Qed.

(** C5: every model obtained from the constructor and the setters has
    [len(ar_poly) >= len(ma_poly)], [ar_poly[0] == 1] and
    [ma_poly[0] == 1]. *)
Theorem reachable_invariant (m : ARMA T) :
  reachable m ->
  length (ma_poly m) <= length (ar_poly m)
  /\ nth_error (ar_poly m) 0 = Some one
  /\ nth_error (ma_poly m) 0 = Some one.
Proof.
  intros Hm. rewrite <- (reachable_fixed Hm).
  rewrite ma_poly_set_params, ar_poly_set_params.
  rewrite spec_ar_poly_length.
  destruct (spec_ar_poly_head (_phi m) (_theta m)) as [rest ->].
  unfold spec_ma_poly; simpl. repeat split; lia.
Qed.

(** C9: setting [phi] to a new value and then back to the old one gives
    back the old [ar_poly], and indeed the old model. *)
Theorem phi_setter_restores (m : ARMA T) (v : np.array_like) :
  reachable m ->
  ar_poly (phi_setter (phi_setter m v) (phi m)) = ar_poly m
  /\ phi_setter (phi_setter m v) (phi m) = m.
Proof.
  intros Hm.
  assert (Hback : phi_setter (phi_setter m v) (phi m) = m).
  { rewrite <- (reachable_fixed Hm) at 3.
    unfold phi_setter, phi. now apply set_params_ext. }
  now rewrite Hback.
Qed.

(** C10: with a scalar [theta], and so with the default [theta=0] of a
    pure AR model, [ma_poly] is [[1, theta]], of length 2 and not [[1]]. *)
Theorem scalar_theta_ma_poly (p : np.array_like) (t s : T) :
  ma_poly (__init__ p (np.scalar t) s) = [one; t]
  /\ length (ma_poly (__init__ p (np.scalar t) s)) = 2
  /\ ma_poly (__init__ p default_theta default_sigma) = [one; zero]
  /\ ma_poly (__init__ p default_theta default_sigma) <> [one].
Proof.
  unfold __init__, default_theta.
  rewrite !ma_poly_set_params. simpl. repeat split; discriminate.
Qed.

End NormalisationFacts.

(** Sample runs of the normalisation on integer parameters. *)

Example set_params_pads :
  let m := __init__ (np.sequence [5%Z]) (np.sequence [2; 3; 4]%Z) 1%Z in
  ma_poly m = [1; 2; 3; 4]%Z /\ ar_poly m = [1; -5; 0; 0]%Z.
Proof. split; reflexivity. Qed.

Example set_params_no_pad :
  let m := __init__ (np.sequence [5; 6; 7]%Z) (np.scalar 2%Z) 1%Z in
  ma_poly m = [1; 2]%Z /\ ar_poly m = [1; -5; -6; -7]%Z.
Proof. split; reflexivity. Qed.

Example set_params_scalars :
  let m := __init__ (np.scalar 5%Z) default_theta default_sigma in
  ma_poly m = [1; 0]%Z /\ ar_poly m = [1; -5]%Z.
Proof. split; reflexivity. Qed.

Lemma reachable_invariant_witness :
  let m := theta_setter (__init__ (np.scalar 5%Z) default_theta 1%Z)
             (np.sequence [2; 3; 4]%Z) in
  reachable m
  /\ (length (ma_poly m) <= length (ar_poly m))%nat
  /\ nth_error (ar_poly m) 0 = Some (one : Z)
  /\ nth_error (ma_poly m) 0 = Some (one : Z).
Proof.
  split.
  - apply reach_theta, reach_init.
  - apply (reachable_invariant (T := Z)). apply reach_theta, reach_init.
Defined.

Lemma phi_setter_restores_witness :
  let m := __init__ (np.sequence [5; 6]%Z) (np.scalar 2%Z) 1%Z in
  reachable m
  /\ ar_poly (phi_setter (phi_setter m (np.scalar 7%Z)) (phi m)) = ar_poly m
  /\ phi_setter (phi_setter m (np.scalar 7%Z)) (phi m) = m.
Proof.
  split.
  - apply reach_init.
  - apply (phi_setter_restores (T := Z)). apply reach_init.
Defined.

(** ** The filter routines on the arrays of a model *)

Lemma strip_zeros_head_one (a : list R) :
  signal.strip_zeros (1 :: a) = 1 :: a.
Proof.
  destruct a as [|y a]; simpl; [reflexivity|].
  destruct (Req_dec_T 1 0) as [Heq|_]; [lra | reflexivity].
Qed.

Lemma close_to_zero_one : signal.close_to_zero 1 = false.
Proof.
  unfold signal.close_to_zero.
  destruct (Rle_dec _ _) as [Hle|_]; [|reflexivity].
  exfalso. revert Hle.
  replace (0 - 1) with (- (1)) by ring.
  rewrite Rabs_Ropp, Rabs_R1.
  assert (H14 : / 10 ^ 14 <= / 10).
  { apply Rinv_le_contravar; [lra | simpl; lra]. }
  assert (H5 : / 10 ^ 5 <= / 10).
  { apply Rinv_le_contravar; [lra | simpl; lra]. }
  lra.
Qed.

Lemma strip_small_head_one (b : list R) :
  signal.strip_small (1 :: b) = 1 :: b.
Proof.
  destruct b as [|y b]; simpl; [reflexivity|].
  now rewrite close_to_zero_one.
Qed.

Lemma map_div_one (l : list R) : map (fun x => x * 1 / 1) l = l.
Proof.
  induction l as [|x l IH]; simpl; [reflexivity|].
  rewrite IH. f_equal. field.
Qed.

(** With leading coefficients 1, [normalize] changes nothing. *)
Lemma normalize_head_one (b a : list R) :
  signal.normalize (1 :: b) (1 :: a) = (1 :: b, 1 :: a).
Proof.
  unfold signal.normalize.
  rewrite strip_zeros_head_one. cbn [hd].
  rewrite !map_div_one. now rewrite strip_small_head_one.
Qed.

(** The shape of the arrays of a reachable model. *)
Lemma reachable_shape (m : ARMA R) :
  reachable m ->
  exists b a,
    ma_poly m = 1 :: b /\ ar_poly m = 1 :: a /\ (length b <= length a)%nat.
Proof.
  intros Hm. rewrite <- (reachable_fixed Hm).
  rewrite ma_poly_set_params, ar_poly_set_params.
  pose proof (spec_ar_poly_length (_phi m) (_theta m)) as Hlen.
  destruct (spec_ar_poly_head (_phi m) (_theta m)) as [a Ha].
  rewrite Ha in Hlen |- *. unfold spec_ma_poly.
  exists (as_sequence (_theta m)), a. repeat split.
  cbn [length] in Hlen. lia.
Qed.

(** On such arrays the conversion to state space never fails. *)
Lemma tf2ss_head_one (b a : list R) :
  (length b <= length a)%nat ->
  succeeds (signal.tf2ss (1 :: b) (1 :: a)).
Proof.
  intros Hlen. unfold signal.tf2ss. rewrite normalize_head_one.
  destruct (Nat.ltb_spec (length (1%R :: a)) (length (1%R :: b))) as [Hlt|_].
  - simpl in Hlt. lia.
  - destruct (length (1%R :: a) =? 1)%nat; eexists; reflexivity.
Qed.

Lemma tf2ss_reachable (m : ARMA R) :
  reachable m -> succeeds (signal.tf2ss (ma_poly m) (ar_poly m)).
Proof.
  intros Hm. destruct (reachable_shape Hm) as (b & a & -> & -> & Hlen).
  now apply tf2ss_head_one.
Qed.

(** The state-space form of a model with scalar [phi] and [theta]. *)
Lemma tf2ss_scalars (p t : R) :
  signal.tf2ss [1; t] [1; - p]
  = Ok (signal.mkSS [[- - p]] [1] [t + - (1 * - p)] 1).
Proof.
  unfold signal.tf2ss. rewrite normalize_head_one. reflexivity.
Qed.


(** *** Resampling over the time grid of [dimpulse] *)

Lemma linspace_open_unit (n : nat) :
  linspace_open (INR n * 1) n = map INR (seq 0 n).
Proof.
  unfold linspace_open. apply map_ext_in. intros k Hk. apply in_seq in Hk.
  assert (Hn : INR n <> 0) by (apply not_0_INR; lia).
  field. exact Hn.
Qed.

Lemma linspace_closed_unit (k : nat) :
  (1 <= k)%nat -> linspace_closed (INR k) (S k) = map INR (seq 0 (S k)).
Proof.
  intros Hk. unfold linspace_closed. apply map_ext. intros i.
  assert (Hk0 : INR k <> 0) by (apply not_0_INR; lia).
  replace (S k - 1)%nat with k by lia. field. exact Hk0.
Qed.

Lemma last_grid (k : nat) : last (map INR (seq 0 (S k))) 0 = INR k.
Proof. rewrite seq_S, map_app. cbn [map Nat.add]. apply last_last. Qed.

Lemma nth_grid (n i : nat) :
  (i < n)%nat -> nth i (map INR (seq 0 n)) 0 = INR i.
Proof.
  intros Hi. rewrite (nth_indep _ 0 (INR 0)) by (now rewrite length_map, length_seq).
  now rewrite map_nth, seq_nth.
Qed.

Lemma searchsorted_grid (n j : nat) :
  searchsorted (map INR (seq 0 n)) (INR j) = Nat.min j n.
Proof.
  unfold searchsorted. induction n as [|n IH]; [now rewrite Nat.min_0_r|].
  rewrite seq_S, map_app, filter_app, length_app, IH. cbn [map filter Nat.add].
  destruct (Rlt_dec (INR n) (INR j)) as [Hlt|Hge].
  - apply INR_lt in Hlt. cbn [length]. lia.
  - assert (j <= n)%nat.
    { destruct (Nat.le_gt_cases j n) as [Hle|Hgt]; [exact Hle|].
      exfalso. apply Hge. now apply lt_INR. }
    cbn [length]. lia.
Qed.

(** On the grid [0, 1, ..., n - 1] the interpolation at a grid point is
    the sample at that point. *)
Lemma interp1d_at_grid (u : list R) (n j : nat) :
  (2 <= n)%nat -> (j < n)%nat ->
  interp1d_at (map INR (seq 0 n)) u (INR j) = Ok (nth j u 0).
Proof.
  intros Hn Hj. unfold interp1d_at.
  destruct n as [|k]; [lia|].
  rewrite last_grid. cbn [seq map hd].
  fold (map INR (seq 1 k)).
  change (INR 0 :: map INR (seq 1 k)) with (map INR (seq 0 (S k))).
  destruct (Rlt_dec (INR j) (INR 0)) as [Hlt|_];
    [apply INR_lt in Hlt; lia|].
  destruct (Rlt_dec (INR k) (INR j)) as [Hlt|_];
    [apply INR_lt in Hlt; lia|].
  rewrite searchsorted_grid, length_map, length_seq.
  unfold clip. f_equal.
  destruct j as [|j'].
  - replace (Nat.min (Nat.max (Nat.min 0 (S k)) 1) (S k - 1)) with 1%nat
      by lia.
    rewrite !nth_grid by lia. cbn [Nat.sub INR]. unfold Rdiv. ring.
  - replace (Nat.min (Nat.max (Nat.min (S j') (S k)) 1) (S k - 1))
      with (S j') by lia.
    rewrite !nth_grid by lia.
    replace (S j' - 1)%nat with j' by lia. rewrite S_INR.
    field. lra.
Qed.

Lemma traverse_ok {A B : Type} (f : A -> result B) (g : A -> B)
  (l : list A) :
  (forall a, In a l -> f a = Ok (g a)) -> traverse f l = Ok (map g l).
Proof.
  induction l as [|a l IH]; intros Hf; [reflexivity|].
  cbn [traverse map]. rewrite (Hf a) by (now left).
  cbn [bind]. rewrite IH by (intros b Hb; apply Hf; now right).
  reflexivity.
Qed.

Lemma map_nth_seq (u : list R) :
  map (fun j => nth j u 0) (seq 0 (length u)) = u.
Proof.
  induction u as [|x u IH]; [reflexivity|].
  cbn [length seq map nth]. f_equal.
  rewrite <- seq_shift, map_map. exact IH.
Qed.

Lemma interp1d_grid (u : list R) (n : nat) :
  (2 <= n)%nat -> length u = n ->
  interp1d (map INR (seq 0 n)) u (map INR (seq 0 n)) = Ok u.
Proof.
  intros Hn Hu. unfold interp1d.
  rewrite length_map, length_seq, Hu, Nat.eqb_refl. cbn [negb].
  destruct (Nat.ltb_spec n 2) as [Hlt|_]; [lia|].
  rewrite (traverse_ok _ (fun x => nth (Z.to_nat (Int_part x)) u 0)).
  - rewrite map_map. f_equal.
    etransitivity; [|apply map_nth_seq]. rewrite Hu.
    apply map_ext. intros j. now rewrite Int_part_INR, Nat2Z.id.
  - intros x Hx. apply in_map_iff in Hx. destruct Hx as (j & <- & Hj).
    apply in_seq in Hj. rewrite Int_part_INR, Nat2Z.id.
    apply interp1d_at_grid; lia.
Qed.

(** With at least two samples, [dlsim] on the time grid of [dimpulse]
    runs the loop on the samples as they are. *)
Lemma dlsim_t_grid (num den u : list R) (ss : signal.StateSpace) (n : nat) :
  signal.tf2ss num den = Ok ss -> (2 <= n)%nat -> length u = n ->
  signal.dlsim_t num den u (linspace_open (INR n * 1) n)
  = Ok (signal.dlsim_loop ss (repeat 0 (length (signal.ssA ss))) u).
Proof.
  intros Hss Hn Hu. unfold signal.dlsim_t. rewrite Hss. cbn [bind].
  rewrite linspace_open_unit.
  destruct n as [|k]; [lia|].
  unfold getitem_last. cbn [seq map]. fold (map INR (seq 1 k)).
  change (INR 0 :: map INR (seq 1 k)) with (map INR (seq 0 (S k))).
  cbn [bind]. rewrite last_grid.
  replace (INR k / 1) with (INR k) by field.
  rewrite Int_part_INR.
  replace (Z.to_nat (Z.of_nat k + 1)) with (S k) by lia.
  rewrite linspace_closed_unit by lia.
  rewrite interp1d_grid by (lia || exact Hu). cbn [bind].
  destruct u as [|u0 u']; [simpl in Hu; lia|]. reflexivity.
Qed.

Lemma dimpulse_run (num den : list R) (ss : signal.StateSpace) (k : nat) :
  signal.tf2ss num den = Ok ss ->
  signal.dimpulse num den (S (S k))
  = Ok (signal.dlsim_loop ss (repeat 0 (length (signal.ssA ss)))
          (1 :: repeat 0 (S k))).
Proof.
  intros Hss. unfold signal.dimpulse.
  change (np.zeros (S (S k))) with (0 :: repeat 0 (S k)).
  cbn [setitem0 bind].
  apply dlsim_t_grid; [exact Hss | lia |].
  cbn [length]. now rewrite repeat_length.
Qed.

(** A system with one state on a zero input: the state decays
    geometrically. *)
Lemma dlsim_loop_one_state (a c d x : R) (k : nat) :
  signal.dlsim_loop (signal.mkSS [[a]] [1] [c] d) [x] (repeat 0 k)
  = map (fun i => c * (a ^ i * x)) (seq 0 k).
Proof.
  revert x; induction k as [|k IH]; intros x; [reflexivity|].
  cbn [repeat signal.dlsim_loop signal.ssA signal.ssB signal.ssC signal.ssD
       signal.dot signal.mat_vec signal.vec_add signal.vec_scale map].
  rewrite IH. cbn [seq map]. f_equal; [simpl; ring|].
  rewrite <- seq_shift, map_map.
  apply map_ext. intros i. simpl. ring.
Qed.

Lemma init_scalars (p t s : R) :
  ma_poly (__init__ (np.scalar p) (np.scalar t) s) = [1; t]
  /\ ar_poly (__init__ (np.scalar p) (np.scalar t) s) = [1; - p]
  /\ sigma (__init__ (np.scalar p) (np.scalar t) s) = s.
Proof. repeat split. Qed.

(** The impulse response of [X_t = p X_{t-1} + e_t + t e_{t-1}]:
    [psi_0 = 1] and [psi_{i+1} = (t + p) p^i]. *)
Lemma impulse_response_arma11 (p t s : R) (k : nat) :
  impulse_response (__init__ (np.scalar p) (np.scalar t) s) (S (S k))
  = Ok (1 :: map (fun i => (t + p) * p ^ i) (seq 0 (S k))).
Proof.
  unfold impulse_response.
  destruct (init_scalars p t s) as (-> & -> & _).
  rewrite (@dimpulse_run _ _ _ k (tf2ss_scalars p t)).
  set (u := repeat 0 (S k)).
  cbn [bind signal.ssA length repeat
       signal.dlsim_loop signal.ssB signal.ssC signal.ssD
       signal.dot signal.mat_vec signal.vec_add signal.vec_scale map].
  subst u. rewrite dlsim_loop_one_state, Ropp_involutive.
  f_equal. f_equal; [simpl; ring|].
  apply map_ext. intros i. simpl. ring.
Qed.


(** A sample run with a moving-average term: [phi = 1/2], [theta = 1/4]. *)
Example impulse_response_arma11_sample :
  impulse_response (__init__ (np.scalar (1 / 2)) (np.scalar (1 / 4)) 1) 4
  = Ok [1; 3 / 4; 3 / 8; 3 / 16].
Proof.
  rewrite impulse_response_arma11. cbn [seq map].
  f_equal. repeat (apply f_equal2; [simpl; field|]). reflexivity.
Qed.




Lemma dlsim_loop_length (ss : signal.StateSpace) (u x : list R) :
  length (signal.dlsim_loop ss x u) = length u.
Proof.
  revert x; induction u as [|ui u IH]; intros x; simpl; [reflexivity|].
  now rewrite IH.
Qed.

(** With at least two samples [impulse_response] returns that many values,
    [simulation] with at least one. *)
Lemma impulse_response_length (m : ARMA R) (n : nat) :
  reachable m -> (2 <= n)%nat ->
  exists psi, impulse_response m n = Ok psi /\ length psi = n.
Proof.
  intros Hm Hn. destruct (tf2ss_reachable Hm) as [ss Hss].
  unfold impulse_response.
  destruct n as [|[|k]]; try lia.
  rewrite (@dimpulse_run _ _ _ k Hss). cbn [bind].
  eexists. split; [reflexivity|].
  rewrite dlsim_loop_length. cbn [length]. now rewrite repeat_length.
Qed.

Lemma simulation_length (m : ARMA R) (n : nat) (g : RandomState) :
  reachable m -> (1 <= n)%nat ->
  exists vals, fst (simulation m n g) = Ok vals /\ length vals = n.
Proof.
  intros Hm Hn. destruct (tf2ss_reachable Hm) as [ss Hss].
  unfold simulation, randn, signal.dlsim. cbn [fst].
  rewrite Hss. cbn [bind].
  destruct n as [|k]; [lia|].
  cbn [seq map]. eexists. split; [reflexivity|].
  rewrite dlsim_loop_length. simpl. now rewrite !length_map, length_seq.
Qed.

Lemma impulse_response_zero (m : ARMA R) :
  impulse_response m 0 = Raise IndexError.
Proof. reflexivity. Qed.

Lemma simulation_zero (m : ARMA R) (g : RandomState) :
  reachable m -> fst (simulation m 0 g) = Raise IndexError.
Proof.
  intros Hm. destruct (tf2ss_reachable Hm) as [ss Hss].
  unfold simulation, randn, signal.dlsim. cbn [fst seq map].
  now rewrite Hss.
Qed.

(** ** Spectral density *)

Lemma complex_eq (x y : complex) :
  real x = real y -> imag x = imag y -> x = y.
Proof. destruct x, y; simpl; intros -> ->; reflexivity. Qed.

(** Horner's rule on the reversed array is the polynomial in ascending
    powers. *)
Lemma polyval_rev (p : list R) (x : complex) :
  polyval (rev p) x = poly_eval p x.
Proof.
  unfold polyval.
  induction p as [|c p IH]; [reflexivity|].
  simpl. rewrite fold_left_app. simpl. rewrite IH.
  apply complex_eq; simpl; ring.
Qed.

Lemma freqz_at_transfer (b a : list R) (w : R) :
  signal.freqz_at b a w = transfer b a w.
Proof. unfold signal.freqz_at, transfer. now rewrite !polyval_rev. Qed.

(** [h * conj(h) * s**2] is the real number [|h|^2 * s^2]. *)
Lemma power_entry (h : complex) (s : R) :
  let z := Cmul (Cmul h (conj h)) (of_real (s ^ 2)) in
  imag z = 0 /\ real z = Cnorm2 h * s ^ 2 /\ 0 <= real z.
Proof.
  assert (Hre : real (Cmul (Cmul h (conj h)) (of_real (s ^ 2)))
                = Cnorm2 h * s ^ 2).
  { unfold Cnorm2; simpl; ring. }
  cbv zeta. rewrite Hre. split; [simpl; ring|]. split; [reflexivity|].
  apply Rmult_le_pos.
  - unfold Cnorm2. nra.
  - apply pow2_ge_0.
Qed.

Lemma spectral_density_eq (m : ARMA R) (two_pi : bool)
  (res : signal.worN_arg) :
  spectral_density m two_pi res
  = (fst (signal.freqz (ma_poly m) (ar_poly m) res two_pi),
     map (fun w =>
            let h := signal.freqz_at (ma_poly m) (ar_poly m) w in
            Cmul (Cmul h (conj h)) (of_real (sigma m ^ 2)))
         (fst (signal.freqz (ma_poly m) (ar_poly m) res two_pi))).
Proof.
  unfold spectral_density, signal.freqz. cbn [fst]. now rewrite map_map.
Qed.

(** The frequencies for an integer [res]: [res] points, the [k]-th at
    [k * lastpoint / res]. *)
Lemma spectral_density_frequencies (m : ARMA R) (two_pi : bool) (n : nat) :
  fst (spectral_density m two_pi (signal.worN_int n))
  = map (fun k => INR k * ((if two_pi then 2 * PI else PI) / INR n))
        (seq 0 n).
Proof. rewrite spectral_density_eq. reflexivity. Qed.

Lemma spectral_density_length (m : ARMA R) (two_pi : bool) (n : nat) :
  length (snd (spectral_density m two_pi (signal.worN_int n))) = n.
Proof.
  rewrite spectral_density_eq. cbn [snd fst signal.freqz].
  unfold linspace_open. now rewrite !length_map, length_seq.
Qed.

(** ** Autocovariance *)

Lemma ifft_nonempty (a : list complex) :
  a <> [] -> ifft a = Ok (inverse_dft a).
Proof. destruct a; [congruence | reflexivity]. Qed.

Lemma default_spect_length (m : ARMA R) :
  length (default_spect m) = default_res.
Proof. apply spectral_density_length. Qed.

Lemma default_spect_nonempty (m : ARMA R) : default_spect m <> [].
Proof.
  intros Hnil. pose proof (default_spect_length m) as Hlen.
  rewrite Hnil in Hlen. discriminate Hlen.
Qed.

(** [autocovariance] never fails: it is a slice of the real parts of the
    inverse transform of 1200 power values. *)
Lemma autocovariance_eq (m : ARMA R) (n : Z) :
  autocovariance m n
  = Ok (slice_to n (map real (inverse_dft (default_spect m)))).
Proof.
  unfold autocovariance. fold (default_spect m).
  now rewrite (ifft_nonempty (@default_spect_nonempty m)).
Qed.

Lemma inverse_dft_length (a : list complex) :
  length (inverse_dft a) = length a.
Proof. unfold inverse_dft. now rewrite length_map, length_seq. Qed.

Lemma acov_full_length (m : ARMA R) :
  length (map real (inverse_dft (default_spect m))) = default_res.
Proof.
  now rewrite length_map, inverse_dft_length, default_spect_length.
Qed.

Lemma slice_to_nonneg {A : Type} (n : Z) (a : list A) :
  (0 <= n)%Z -> slice_to n a = firstn (Z.to_nat n) a.
Proof.
  intros Hn. unfold slice_to.
  destruct (Z.leb_spec 0 n) as [_|Hlt]; [reflexivity | lia].
Qed.

Lemma slice_to_neg {A : Type} (n : Z) (a : list A) :
  (n < 0)%Z ->
  slice_to n a = firstn (length a - Z.to_nat (- n)) a.
Proof.
  intros Hn. unfold slice_to.
  destruct (Z.leb_spec 0 n) as [Hle|_]; [lia|].
  f_equal. lia.
Qed.

Lemma real_Csum (l : list complex) :
  real (Csum l) = Rsum (map real l).
Proof.
  induction l as [|z l IH]; [reflexivity|].
  cbn [Csum fold_right map Rsum]. fold (Csum l). fold (Rsum (map real l)).
  now rewrite <- IH.
Qed.

(** The [k]-th default power value. *)
Lemma default_spect_entry (m : ARMA R) (k : nat) :
  (k < default_res)%nat ->
  real (nth k (default_spect m) C0) = power_at m default_res k
  /\ imag (nth k (default_spect m) C0) = 0.
Proof.
  intros Hk. unfold default_spect. rewrite spectral_density_eq.
  cbn [snd fst signal.freqz]. unfold linspace_open. rewrite map_map.
  match goal with
  | |- context [nth k (map ?F _) C0] =>
      rewrite (nth_indep (map F (seq 0 default_res)) C0 (F 0%nat))
        by (now rewrite length_map, length_seq);
      rewrite (map_nth F), seq_nth by exact Hk
  end.
  cbv beta. rewrite freqz_at_transfer. rewrite Nat.add_0_l.
  destruct (power_entry
              (transfer (ma_poly m) (ar_poly m)
                 (INR k * (2 * PI / INR default_res))) (sigma m))
    as (Him & Hre & _).
  split; [exact Hre | exact Him].
Qed.

(** The real part of the inverse transform of the power values is a cosine
    sum. *)
Lemma acov_entry (m : ARMA R) (j : nat) :
  real (ifft_entry (default_spect m) j)
  = / INR default_res
    * Rsum (map (fun k => power_at m default_res k
                          * cos (2 * PI * INR j * INR k / INR default_res))
                (seq 0 default_res)).
Proof.
  unfold ifft_entry. rewrite default_spect_length.
  cbn [real Cmul of_real imag]. rewrite real_Csum, map_map.
  rewrite Rmult_0_l, Rminus_0_r. f_equal. f_equal.
  apply map_ext_in. intros k Hk. apply in_seq in Hk.
  destruct (@default_spect_entry m k) as (Hre & Him); [lia|].
  cbn [real Cmul Cexp_i imag]. rewrite Hre, Him. ring.
Qed.

Lemma acov_nth (m : ARMA R) (j : nat) :
  (j < default_res)%nat ->
  nth j (map real (inverse_dft (default_spect m))) 0
  = real (ifft_entry (default_spect m) j).
Proof.
  intros Hj. unfold inverse_dft. rewrite map_map, default_spect_length.
  match goal with
  | |- nth j (map ?F _) 0 = _ =>
      rewrite (nth_indep (map F (seq 0 default_res)) 0 (F 0%nat))
        by (now rewrite length_map, length_seq);
      rewrite (map_nth F), seq_nth by exact Hj
  end.
  reflexivity.
Qed.

(** C3, as the code has it: a positive [num_autocov] gets the first [num_autocov]
    entries of the real part of the inverse transform of the 1200 default
    power values; these are [num_autocov] values up to 1200, and 1200
    values beyond. *)
Theorem autocovariance_first_lags (m : ARMA R) (n : Z) :
  (0 < n)%Z ->
  exists acov,
    autocovariance m n = Ok acov
    /\ acov = firstn (Z.to_nat n) (map real (inverse_dft (default_spect m)))
    /\ length acov = Nat.min (Z.to_nat n) default_res
    /\ ((n <= Z.of_nat default_res)%Z -> length acov = Z.to_nat n)
    /\ (forall j, (j < length acov)%nat ->
          nth j acov 0
          = / INR default_res
            * Rsum (map (fun k =>
                           power_at m default_res k
                           * cos (2 * PI * INR j * INR k / INR default_res))
                        (seq 0 default_res))).
Proof.
  intros Hn. rewrite autocovariance_eq, slice_to_nonneg by lia.
  eexists. split; [reflexivity|]. split; [reflexivity|].
  assert (Hlen : length (firstn (Z.to_nat n)
                           (map real (inverse_dft (default_spect m))))
                 = Nat.min (Z.to_nat n) default_res).
  { now rewrite length_firstn, acov_full_length. }
  rewrite Hlen. split; [reflexivity|]. split; [lia|].
  intros j Hj. rewrite nth_firstn.
  destruct (Nat.ltb_spec j (Z.to_nat n)) as [_|Hge]; [|lia].
  rewrite acov_nth by lia. apply acov_entry.
Qed.

Lemma autocovariance_first_lags_witness :
  (0 < 16)%Z
  /\ exists acov,
      autocovariance white_noise 16 = Ok acov
      /\ acov = firstn (Z.to_nat 16)
                  (map real (inverse_dft (default_spect white_noise)))
      /\ length acov = Nat.min (Z.to_nat 16) default_res
      /\ ((16 <= Z.of_nat default_res)%Z -> length acov = Z.to_nat 16)
      /\ (forall j, (j < length acov)%nat ->
            nth j acov 0
            = / INR default_res
              * Rsum (map (fun k =>
                             power_at white_noise default_res k
                             * cos (2 * PI * INR j * INR k / INR default_res))
                          (seq 0 default_res))).
Proof.
  split; [reflexivity|].
  apply (@autocovariance_first_lags white_noise 16). reflexivity.
Defined.

(** Asking for 1201 autocovariances yields 1200 of them. *)
Lemma autocovariance_1201_is_short :
  exists acov,
    autocovariance white_noise 1201 = Ok acov
    /\ length acov = 1200%nat
    /\ length acov <> Z.to_nat 1201.
Proof.
  rewrite autocovariance_eq, slice_to_nonneg by lia.
  eexists. split; [reflexivity|].
  rewrite length_firstn, acov_full_length.
  unfold default_res. split; lia.
Qed.

(** ** Arguments that are not positive *)

(** No autocovariances asked for: the empty array, and no error. *)
Lemma autocovariance_zero_lags_no_error :
  autocovariance white_noise 0 = Ok []
  /\ ~ raises (autocovariance white_noise 0).
Proof.
  rewrite autocovariance_eq, slice_to_nonneg by lia.
  split; [reflexivity|]. intros [e He]. discriminate He.
Qed.

(** C7, as the code has it: the methods do not check their arguments.  With length 0,
    [impulse_response] and [simulation] fail inside the library with an
    index error and return nothing; [autocovariance] with [num_autocov = 0]
    returns the empty array, with a negative [num_autocov = -k] all but the
    last [k] of its 1200 values; [spectral_density] with [res = 0] returns
    two empty arrays. *)
Theorem nonpositive_arguments (m : ARMA R) (g : RandomState) :
  reachable m ->
  impulse_response m 0 = Raise IndexError
  /\ fst (simulation m 0 g) = Raise IndexError
  /\ autocovariance m 0 = Ok []
  /\ (forall n, (n < 0)%Z ->
        autocovariance m n
        = Ok (firstn (default_res - Z.to_nat (- n))
                (map real (inverse_dft (default_spect m)))))
  /\ (forall two_pi,
        spectral_density m two_pi (signal.worN_int 0) = ([], [])).
Proof.
  intros Hm. split; [apply impulse_response_zero|].
  split; [now apply simulation_zero|].
  split; [now rewrite autocovariance_eq, slice_to_nonneg by lia|].
  split.
  - intros n Hn. rewrite autocovariance_eq, slice_to_neg by exact Hn.
    now rewrite acov_full_length.
  - intros two_pi. now rewrite spectral_density_eq.
Qed.

Lemma nonpositive_arguments_witness :
  reachable white_noise
  /\ impulse_response white_noise 0 = Raise IndexError
  /\ fst (simulation white_noise 0 ramp) = Raise IndexError
  /\ autocovariance white_noise 0 = Ok []
  /\ (forall n, (n < 0)%Z ->
        autocovariance white_noise n
        = Ok (firstn (default_res - Z.to_nat (- n))
                (map real (inverse_dft (default_spect white_noise)))))
  /\ (forall two_pi,
        spectral_density white_noise two_pi (signal.worN_int 0) = ([], [])).
Proof.
  split; [apply reach_init|].
  apply nonpositive_arguments. apply reach_init.
Defined.

(** With length 0 both filter methods raise; neither returns the empty
    array. *)
Lemma zero_length_white_noise_fails :
  impulse_response white_noise 0 = Raise IndexError
  /\ fst (simulation white_noise 0 ramp) = Raise IndexError
  /\ impulse_response white_noise 0 <> Ok []
  /\ fst (simulation white_noise 0 ramp) <> Ok [].
Proof.
  assert (Hsim : fst (simulation white_noise 0 ramp) = Raise IndexError).
  { apply simulation_zero, reach_init. }
  rewrite Hsim, impulse_response_zero.
  repeat split; discriminate.
Qed.

(** C8, as the code has it: [simulation] with length 0 and [impulse_response] with
    length 0 both fail with an index error raised in the library; neither
    returns an empty sequence. *)
Theorem zero_length_calls_fail (m : ARMA R) (g : RandomState) :
  reachable m ->
  impulse_response m 0 = Raise IndexError
  /\ fst (simulation m 0 g) = Raise IndexError
  /\ impulse_response m 0 <> Ok []
  /\ fst (simulation m 0 g) <> Ok [].
Proof.
  intros Hm. rewrite (simulation_zero g Hm), impulse_response_zero.
  repeat split; discriminate.
Qed.

Lemma zero_length_calls_fail_witness :
  reachable (__init__ (np.scalar (9 / 10)) default_theta default_sigma)
  /\ impulse_response
       (__init__ (np.scalar (9 / 10)) default_theta default_sigma) 0
     = Raise IndexError
  /\ fst (simulation
            (__init__ (np.scalar (9 / 10)) default_theta default_sigma) 0 ramp)
     = Raise IndexError
  /\ impulse_response
       (__init__ (np.scalar (9 / 10)) default_theta default_sigma) 0
     <> Ok []
  /\ fst (simulation
            (__init__ (np.scalar (9 / 10)) default_theta default_sigma) 0 ramp)
     <> Ok [].
Proof.
  split; [apply reach_init|].
  apply zero_length_calls_fail. apply reach_init.
Defined.

(** ** Simulation and the global generator *)

Lemma simulation_eq (m : ARMA R) (n : nat) (g : RandomState) :
  simulation m n g
  = (signal.dlsim (ma_poly m) (ar_poly m)
       (map (fun k => g k * sigma m) (seq 0 n)),
     fun k => g (n + k)%nat).
Proof. unfold simulation, randn. now rewrite map_map. Qed.


(** * Further properties *)

(** ** The model as a function of its current parameters *)

Section ParameterFacts.
Context {T : Type} `{Dtype T}.

Local Open Scope nat_scope.

Lemma init_fields (p t : np.array_like) (s : T) :
  _phi (__init__ p t s) = p
  /\ _theta (__init__ p t s) = t
  /\ sigma (__init__ p t s) = s.
Proof. now unfold __init__, set_params. Qed.

Lemma reachable_as_init (m : ARMA T) :
  reachable m -> m = __init__ (phi m) (theta m) (sigma m).
Proof.
  intros Hm. rewrite <- (reachable_fixed Hm) at 1.
  unfold __init__, phi, theta. now apply set_params_ext.
Qed.

Lemma reachable_array_lengths (m : ARMA T) :
  reachable m ->
  length (ma_poly m) = S (length (as_sequence (theta m)))
  /\ length (ar_poly m)
     = S (Nat.max (length (as_sequence (phi m)))
                  (length (as_sequence (theta m)))).
Proof.
  intros Hm. rewrite <- (reachable_fixed Hm) at 1 3.
  rewrite ma_poly_set_params, ar_poly_set_params, spec_ar_poly_length.
  unfold spec_ma_poly, phi, theta. simpl. split; lia.
Qed.

(** X1: the lengths of the two arrays in terms of the current parameters:
    [len(ma_poly) = len(theta) + 1] and
    [len(ar_poly) = max(len(phi), len(theta)) + 1], a scalar counting as a
    sequence of length one; in particular [ar_poly] is longer than
    [ma_poly] exactly when [phi] has more coefficients than [theta]. *)
Theorem reachable_lengths (m : ARMA T) :
  reachable m ->
  length (ma_poly m) = S (length (as_sequence (theta m)))
  /\ length (ar_poly m)
     = S (Nat.max (length (as_sequence (phi m)))
                  (length (as_sequence (theta m))))
  /\ (length (ma_poly m) < length (ar_poly m)
      <-> length (as_sequence (theta m)) < length (as_sequence (phi m))).
Proof.
  intros Hm. destruct (reachable_array_lengths Hm) as (Hma & Har).
  rewrite Hma, Har. repeat split; lia.
Qed.

(** X2: a reachable model is the one the constructor builds from its
    current [phi], [theta] and [sigma]: the order and number of earlier
    assignments leave no trace in the two arrays. *)
Theorem reachable_history_free (m : ARMA T) :
  reachable m ->
  m = __init__ (phi m) (theta m) (sigma m)
  /\ (forall m', reachable m' ->
        phi m' = phi m -> theta m' = theta m -> sigma m' = sigma m ->
        m' = m).
Proof.
  intros Hm. split; [now apply reachable_as_init|].
  intros m' Hm' Hp Ht Hs.
  rewrite (reachable_as_init Hm), (reachable_as_init Hm').
  now rewrite Hp, Ht, Hs.
Qed.

(** X3: what a setter leaves alone.  Setting [phi] changes neither
    [theta], [sigma] nor [ma_poly]; setting [theta] changes neither [phi]
    nor [sigma]; assigning [sigma] changes neither array; each getter
    returns the value last set. *)
Theorem setters_frame (m : ARMA T) (v : np.array_like) (s : T) :
  reachable m ->
  (phi (phi_setter m v) = v
   /\ theta (phi_setter m v) = theta m
   /\ sigma (phi_setter m v) = sigma m
   /\ ma_poly (phi_setter m v) = ma_poly m)
  /\ (theta (theta_setter m v) = v
      /\ phi (theta_setter m v) = phi m
      /\ sigma (theta_setter m v) = sigma m)
  /\ (ar_poly (sigma_assign m s) = ar_poly m
      /\ ma_poly (sigma_assign m s) = ma_poly m).
Proof.
  intros Hm. repeat split.
  unfold phi_setter. rewrite ma_poly_set_params. cbn [_theta].
  rewrite <- (reachable_fixed Hm) at 2. now rewrite ma_poly_set_params.
Qed.

(** X4: how assignments compose.  A second assignment to [phi] (or
    [theta]) overrides the first, assignments to different parameters
    commute, and assigning after construction is constructing with the new
    value. *)
Theorem setters_compose (m : ARMA T) (p p' t t' : np.array_like) (s s' : T) :
  phi_setter (phi_setter m p) p' = phi_setter m p'
  /\ theta_setter (theta_setter m t) t' = theta_setter m t'
  /\ phi_setter (theta_setter m t) p = theta_setter (phi_setter m p) t
  /\ sigma_assign (phi_setter m p) s = phi_setter (sigma_assign m s) p
  /\ sigma_assign (theta_setter m t) s = theta_setter (sigma_assign m s) t
  /\ phi_setter (__init__ p t s) p' = __init__ p' t s
  /\ theta_setter (__init__ p t s) t' = __init__ p t' s
  /\ sigma_assign (__init__ p t s) s' = __init__ p t s'.
Proof.
  repeat split;
    unfold phi_setter, theta_setter, sigma_assign, __init__;
    try (apply set_params_ext; reflexivity);
    reflexivity.
Qed.

(** X5: the parameters can be read back from the arrays when negation is
    an involution: [theta] is [ma_poly] without its first entry, [phi] is
    the negation of the next [len(phi)] entries of [ar_poly], and what
    follows in [ar_poly] is the zero padding. *)
Theorem arrays_determine_parameters (m : ARMA T) :
  (forall x : T, negative (negative x) = x) ->
  reachable m ->
  tl (ma_poly m) = as_sequence (theta m)
  /\ map negative (firstn (length (as_sequence (phi m))) (tl (ar_poly m)))
     = as_sequence (phi m)
  /\ skipn (length (as_sequence (phi m))) (tl (ar_poly m))
     = repeat zero (length (as_sequence (theta m))
                    - length (as_sequence (phi m))).
Proof.
  intros Hneg Hm.
  assert (Hma : ma_poly m = spec_ma_poly (_theta m)).
  { rewrite <- (reachable_fixed Hm) at 1. apply ma_poly_set_params. }
  assert (Har : ar_poly m = spec_ar_poly (_phi m) (_theta m)).
  { rewrite <- (reachable_fixed Hm) at 1. apply ar_poly_set_params. }
  rewrite Hma, Har.
  unfold spec_ar_poly, spec_ma_poly, phi, theta.
  rewrite pad_until_repeat by (simpl; lia).
  cbn [app tl length].
  set (ps := as_sequence (_phi m)). set (ts := as_sequence (_theta m)).
  assert (Hlen : length (map negative ps) = length ps) by apply length_map.
  rewrite length_map.
  split; [reflexivity|]. split.
  - rewrite <- Hlen at 1. rewrite firstn_app, Nat.sub_diag, firstn_all.
    cbn [firstn]. rewrite app_nil_r, map_map.
    rewrite <- (map_id ps) at 2. apply map_ext. exact Hneg.
  - rewrite <- Hlen at 1. rewrite skipn_app, Nat.sub_diag, skipn_all.
    cbn [skipn app]. first [reflexivity | f_equal; lia].
Qed.

End ParameterFacts.

Lemma reachable_lengths_witness :
  let m := theta_setter (__init__ (np.scalar 5%Z) default_theta 1%Z)
             (np.sequence [2; 3; 4]%Z) in
  reachable m
  /\ length (ma_poly m) = S (length (as_sequence (theta m)))
  /\ length (ar_poly m)
     = S (Nat.max (length (as_sequence (phi m)))
                  (length (as_sequence (theta m))))
  /\ (length (ma_poly m) < length (ar_poly m)
      <-> length (as_sequence (theta m)) < length (as_sequence (phi m)))%nat.
Proof.
  split.
  - apply reach_theta, reach_init.
  - apply (reachable_lengths (T := Z)). apply reach_theta, reach_init.
Defined.

Lemma reachable_history_free_witness :
  let m := phi_setter
             (theta_setter (__init__ (np.scalar 5%Z) default_theta 1%Z)
                (np.sequence [2; 3; 4]%Z))
             (np.sequence [6; 7]%Z) in
  reachable m
  /\ m = __init__ (phi m) (theta m) (sigma m)
  /\ (forall m', reachable m' ->
        phi m' = phi m -> theta m' = theta m -> sigma m' = sigma m ->
        m' = m).
Proof.
  split.
  - apply reach_phi, reach_theta, reach_init.
  - apply (reachable_history_free (T := Z)).
    apply reach_phi, reach_theta, reach_init.
Defined.

Lemma setters_frame_witness :
  let m := __init__ (np.sequence [5; 6]%Z) (np.scalar 2%Z) 1%Z in
  let v := np.sequence [7; 8; 9]%Z in
  reachable m
  /\ (phi (phi_setter m v) = v
      /\ theta (phi_setter m v) = theta m
      /\ sigma (phi_setter m v) = sigma m
      /\ ma_poly (phi_setter m v) = ma_poly m)
  /\ (theta (theta_setter m v) = v
      /\ phi (theta_setter m v) = phi m
      /\ sigma (theta_setter m v) = sigma m)
  /\ (ar_poly (sigma_assign m 3%Z) = ar_poly m
      /\ ma_poly (sigma_assign m 3%Z) = ma_poly m).
Proof.
  split.
  - apply reach_init.
  - apply (setters_frame (T := Z)). apply reach_init.
Defined.

Lemma arrays_determine_parameters_witness :
  let m := __init__ (np.scalar 5%Z) (np.sequence [2; 3; 4]%Z) 1%Z in
  (forall x : Z, negative (negative x) = x)
  /\ reachable m
  /\ tl (ma_poly m) = as_sequence (theta m)
  /\ map negative (firstn (length (as_sequence (phi m))) (tl (ar_poly m)))
     = as_sequence (phi m)
  /\ skipn (length (as_sequence (phi m))) (tl (ar_poly m))
     = repeat zero (length (as_sequence (theta m))
                    - length (as_sequence (phi m))).
Proof.
  assert (Hneg : forall x : Z, negative (negative x) = x)
    by (intros x; apply Z.opp_involutive).
  split; [exact Hneg|]. split; [apply reach_init|].
  apply (arrays_determine_parameters (T := Z) Hneg). apply reach_init.
Defined.


(** ** The filter as a linear, causal system *)

Lemma vec_add_length (a b : list R) :
  length (signal.vec_add a b) = Nat.min (length a) (length b).
Proof.
  revert b; induction a as [|x a IH]; intros [|y b]; simpl; auto.
Qed.

Lemma vec_scale_length (k : R) (a : list R) :
  length (signal.vec_scale k a) = length a.
Proof. apply length_map. Qed.

Lemma mat_vec_length (m : list (list R)) (x : list R) :
  length (signal.mat_vec m x) = length m.
Proof. apply length_map. Qed.

Lemma dot_zeros_r (c : list R) (n : nat) :
  signal.dot c (repeat 0 n) = 0.
Proof.
  revert n; induction c as [|x c IH]; intros [|n]; simpl; auto.
  rewrite IH. ring.
Qed.

Lemma dot_add_r (c x y : list R) :
  length x = length y ->
  signal.dot c (signal.vec_add x y) = signal.dot c x + signal.dot c y.
Proof.
  revert x y; induction c as [|c0 c IH]; intros [|x0 x] [|y0 y] Hlen;
    simpl in *; try discriminate; try ring.
  rewrite IH by congruence. ring.
Qed.

Lemma dot_scale_r (k : R) (c x : list R) :
  signal.dot c (signal.vec_scale k x) = k * signal.dot c x.
Proof.
  revert x; induction c as [|c0 c IH]; intros [|x0 x];
    cbn [signal.dot signal.vec_scale map]; try ring.
  fold (signal.vec_scale k x). rewrite IH. ring.
Qed.

Lemma vec_add_zeros_l (n : nat) (a : list R) :
  length a = n -> signal.vec_add (repeat 0 n) a = a.
Proof.
  revert a; induction n as [|n IH]; intros [|x a] Hlen; simpl in *;
    try discriminate; try reflexivity.
  rewrite IH by congruence. f_equal. ring.
Qed.

Lemma vec_add_zeros_r (n : nat) (a : list R) :
  length a = n -> signal.vec_add a (repeat 0 n) = a.
Proof.
  revert a; induction n as [|n IH]; intros [|x a] Hlen; simpl in *;
    try discriminate; try reflexivity.
  rewrite IH by congruence. f_equal. ring.
Qed.

Lemma vec_add_interchange (a b c d : list R) :
  signal.vec_add (signal.vec_add a b) (signal.vec_add c d)
  = signal.vec_add (signal.vec_add a c) (signal.vec_add b d).
Proof.
  revert b c d; induction a as [|a0 a IH];
    intros [|b0 b] [|c0 c] [|d0 d]; simpl; try reflexivity.
  rewrite IH. f_equal. ring.
Qed.

Lemma vec_scale_add (k : R) (a b : list R) :
  signal.vec_scale k (signal.vec_add a b)
  = signal.vec_add (signal.vec_scale k a) (signal.vec_scale k b).
Proof.
  revert b; induction a as [|a0 a IH]; intros [|b0 b];
    cbn [signal.vec_add signal.vec_scale map]; try reflexivity.
  fold (signal.vec_scale k a). fold (signal.vec_scale k b).
  fold (signal.vec_scale k (signal.vec_add a b)).
  rewrite IH. f_equal. ring.
Qed.

Lemma vec_scale_sum (k l : R) (a : list R) :
  signal.vec_scale (k + l) a
  = signal.vec_add (signal.vec_scale k a) (signal.vec_scale l a).
Proof.
  induction a as [|a0 a IH];
    cbn [signal.vec_add signal.vec_scale map]; [reflexivity|].
  fold (signal.vec_scale k a). fold (signal.vec_scale l a).
  fold (signal.vec_scale (k + l) a).
  rewrite IH. f_equal. ring.
Qed.

Lemma vec_scale_scale (k l : R) (a : list R) :
  signal.vec_scale (k * l) a = signal.vec_scale k (signal.vec_scale l a).
Proof.
  unfold signal.vec_scale. rewrite map_map. apply map_ext. intros x. ring.
Qed.

Lemma vec_scale_one (a : list R) : signal.vec_scale 1 a = a.
Proof.
  unfold signal.vec_scale. rewrite <- (map_id a) at 2.
  apply map_ext. intros x. ring.
Qed.

Lemma vec_scale_zeros (k : R) (n : nat) :
  signal.vec_scale k (repeat 0 n) = repeat 0 n.
Proof.
  induction n as [|n IH]; cbn [repeat signal.vec_scale map]; [reflexivity|].
  fold (signal.vec_scale k (repeat 0 n)). rewrite IH. f_equal. ring.
Qed.

Lemma mat_vec_add (m : list (list R)) (x y : list R) :
  length x = length y ->
  signal.mat_vec m (signal.vec_add x y)
  = signal.vec_add (signal.mat_vec m x) (signal.mat_vec m y).
Proof.
  intros Hlen. induction m as [|row m IH];
    cbn [signal.mat_vec map signal.vec_add]; [reflexivity|].
  fold (signal.mat_vec m x). fold (signal.mat_vec m y).
  fold (signal.mat_vec m (signal.vec_add x y)).
  rewrite IH. f_equal. now apply dot_add_r.
Qed.

Lemma mat_vec_scale (k : R) (m : list (list R)) (x : list R) :
  signal.mat_vec m (signal.vec_scale k x)
  = signal.vec_scale k (signal.mat_vec m x).
Proof.
  induction m as [|row m IH];
    cbn [signal.mat_vec map signal.vec_scale]; [reflexivity|].
  fold (signal.vec_scale k x). fold (signal.mat_vec m x).
  fold (signal.mat_vec m (signal.vec_scale k x)).
  fold (signal.vec_scale k (signal.mat_vec m x)).
  rewrite IH. f_equal. apply dot_scale_r.
Qed.

Lemma mat_vec_zeros (m : list (list R)) (n : nat) :
  signal.mat_vec m (repeat 0 n) = repeat 0 (length m).
Proof.
  induction m as [|row m IH];
    cbn [signal.mat_vec map repeat length]; [reflexivity|].
  fold (signal.mat_vec m (repeat 0 n)).
  rewrite IH. f_equal. apply dot_zeros_r.
Qed.

Lemma nth_vec_add (a b : list R) (t : nat) :
  (t < length a)%nat -> (t < length b)%nat ->
  nth t (signal.vec_add a b) 0 = nth t a 0 + nth t b 0.
Proof.
  revert a b; induction t as [|t IH]; intros [|x a] [|y b] Ha Hb;
    simpl in *; try lia; try reflexivity.
  apply IH; lia.
Qed.

Lemma nth_vec_scale (k : R) (a : list R) (t : nat) :
  nth t (signal.vec_scale k a) 0 = k * nth t a 0.
Proof.
  revert t; induction a as [|x a IH]; intros [|t];
    cbn [signal.vec_scale map nth]; try ring.
  apply IH.
Qed.

(** Causality: the outputs on a prefix of the input are a prefix of the
    outputs. *)
Lemma dlsim_loop_app (ss : signal.StateSpace) (u1 u2 x : list R) :
  exists x',
    signal.dlsim_loop ss x (u1 ++ u2)
    = signal.dlsim_loop ss x u1 ++ signal.dlsim_loop ss x' u2.
Proof.
  revert x; induction u1 as [|u0 u1 IH]; intros x.
  - exists x. reflexivity.
  - cbn [app signal.dlsim_loop].
    destruct (IH (signal.vec_add (signal.mat_vec (signal.ssA ss) x)
                    (signal.vec_scale u0 (signal.ssB ss)))) as [x' Hx'].
    exists x'. now rewrite Hx'.
Qed.

(** Superposition. *)
Lemma dlsim_loop_add (ss : signal.StateSpace) (u u' x x' : list R) :
  length x = length x' -> length u = length u' ->
  signal.dlsim_loop ss (signal.vec_add x x') (signal.vec_add u u')
  = signal.vec_add (signal.dlsim_loop ss x u) (signal.dlsim_loop ss x' u').
Proof.
  revert u' x x'; induction u as [|u0 u IH]; intros [|u0' u'] x x' Hx Hu;
    simpl in Hu; try discriminate; [reflexivity|].
  cbn [signal.vec_add signal.dlsim_loop]. f_equal.
  - rewrite dot_add_r by exact Hx. ring.
  - rewrite mat_vec_add by exact Hx.
    rewrite vec_scale_sum, vec_add_interchange.
    apply IH; [|congruence].
    now rewrite !vec_add_length, !mat_vec_length, !vec_scale_length.
Qed.

(** Homogeneity. *)
Lemma dlsim_loop_scale (ss : signal.StateSpace) (k : R) (u x : list R) :
  signal.dlsim_loop ss (signal.vec_scale k x) (signal.vec_scale k u)
  = signal.vec_scale k (signal.dlsim_loop ss x u).
Proof.
  revert x; induction u as [|u0 u IH]; intros x; [reflexivity|].
  cbn [signal.vec_scale map signal.dlsim_loop].
  fold (signal.vec_scale k u).
  fold (signal.vec_scale k x).
  f_equal.
  - rewrite dot_scale_r. ring.
  - fold (signal.vec_scale k
            (signal.dlsim_loop ss
               (signal.vec_add (signal.mat_vec (signal.ssA ss) x)
                  (signal.vec_scale u0 (signal.ssB ss))) u)).
    rewrite <- IH. f_equal.
    rewrite mat_vec_scale, vec_scale_scale. now rewrite vec_scale_add.
Qed.

(** From the zero state, the response to [u0 :: u'] is [u0] times the
    impulse response plus the response to [u'] one step later. *)
Lemma zero_state_cons (ss : signal.StateSpace) (u0 : R) (u' : list R) :
  length (signal.ssB ss) = length (signal.ssA ss) ->
  signal.dlsim_loop ss (repeat 0 (length (signal.ssA ss))) (u0 :: u')
  = signal.vec_add
      (signal.vec_scale u0
         (signal.dlsim_loop ss (repeat 0 (length (signal.ssA ss)))
            (1 :: repeat 0 (length u'))))
      (0 :: signal.dlsim_loop ss (repeat 0 (length (signal.ssA ss))) u').
Proof.
  intros Hwf. set (n := length (signal.ssA ss)).
  cbn [signal.dlsim_loop signal.vec_scale map signal.vec_add].
  rewrite mat_vec_zeros. fold n.
  rewrite !vec_add_zeros_l by (now rewrite vec_scale_length).
  rewrite vec_scale_one, dot_zeros_r.
  f_equal; [ring|].
  fold (signal.vec_scale u0
          (signal.dlsim_loop ss (signal.ssB ss) (repeat 0 (length u')))).
  rewrite <- dlsim_loop_scale, vec_scale_zeros.
  rewrite <- dlsim_loop_add.
  - rewrite vec_add_zeros_r by (now rewrite vec_scale_length).
    now rewrite vec_add_zeros_l.
  - now rewrite vec_scale_length, repeat_length.
  - now rewrite repeat_length.
Qed.

(** The [i]-th value of the impulse response does not depend on how many
    values are asked for. *)
Lemma impulse_nth_indep (ss : signal.StateSpace) (x : list R) (i k : nat) :
  (i <= k)%nat ->
  nth i (signal.dlsim_loop ss x (1 :: repeat 0 k)) 0
  = nth i (signal.dlsim_loop ss x (1 :: repeat 0 i)) 0.
Proof.
  intros Hik. replace k with (i + (k - i))%nat by lia.
  rewrite repeat_app.
  change (1 :: repeat 0 i ++ repeat 0 (k - i))
    with ((1 :: repeat 0 i) ++ repeat 0 (k - i)).
  destruct (dlsim_loop_app ss (1 :: repeat 0 i) (repeat 0 (k - i)) x)
    as [x' ->].
  apply app_nth1. rewrite dlsim_loop_length. simpl.
  rewrite repeat_length. lia.
Qed.

(** The zero-state response is the convolution of the input with the
    impulse response. *)
Lemma zero_state_convolution (ss : signal.StateSpace) (u : list R) (t : nat) :
  length (signal.ssB ss) = length (signal.ssA ss) ->
  (t < length u)%nat ->
  nth t (signal.dlsim_loop ss (repeat 0 (length (signal.ssA ss))) u) 0
  = Rsum (map (fun j =>
                 nth j u 0
                 * nth (t - j)
                     (signal.dlsim_loop ss
                        (repeat 0 (length (signal.ssA ss)))
                        (1 :: repeat 0 (t - j))) 0)
              (seq 0 (S t))).
Proof.
  intros Hwf. revert t; induction u as [|u0 u IH]; intros t Ht;
    [simpl in Ht; lia|].
  rewrite zero_state_cons by exact Hwf.
  rewrite nth_vec_add.
  2:{ rewrite vec_scale_length, dlsim_loop_length. simpl.
      rewrite repeat_length. simpl in Ht. lia. }
  2:{ simpl. rewrite dlsim_loop_length. simpl in Ht. lia. }
  rewrite nth_vec_scale.
  rewrite impulse_nth_indep by (simpl in Ht; lia).
  cbn [seq map Rsum fold_right]. rewrite Nat.sub_0_r. cbn [nth].
  fold (Rsum (map (fun j =>
                 nth j (u0 :: u) 0
                 * nth (S t - j)
                     (signal.dlsim_loop ss
                        (repeat 0 (length (signal.ssA ss)))
                        (1 :: repeat 0 (S t - j))) 0)
              (seq 1 t))).
  destruct t as [|t].
  - cbn [seq map Rsum fold_right nth]. reflexivity.
  - f_equal. cbn [nth]. rewrite IH by (simpl in Ht; lia).
    rewrite <- (seq_shift (S t) 0), map_map. reflexivity.
Qed.

(** The state-space form of the arrays of a model: its dimensions agree,
    and the direct term is 1 when the arrays are equally long and 0 when
    [ar_poly] is the longer one. *)
Lemma tf2ss_head_one_shape (b a : list R) :
  (length b <= length a)%nat ->
  exists ss,
    signal.tf2ss (1 :: b) (1 :: a) = Ok ss
    /\ length (signal.ssB ss) = length (signal.ssA ss)
    /\ signal.ssD ss = if (length a =? length b)%nat then 1 else 0.
Proof.
  intros Hlen. unfold signal.tf2ss. rewrite normalize_head_one.
  destruct (Nat.ltb_spec (length (1%R :: a)) (length (1%R :: b)))
    as [Hlt|_]; [simpl in Hlt; lia|].
  destruct a as [|a0 a].
  - destruct b as [|b0 b]; [|simpl in Hlen; lia].
    eexists. repeat split.
  - replace (length (1%R :: a0 :: a) =? 1)%nat with false by reflexivity.
    eexists. split; [reflexivity|].
    cbn [signal.ssA signal.ssB signal.ssD]. split.
    + unfold signal.eye. cbn [length].
      rewrite !length_map, !length_seq. simpl. lia.
    + destruct (Nat.eqb_spec (length (a0 :: a)) (length b)) as [Heq|Hne].
      * replace (length (1%R :: a0 :: a) - length (1%R :: b))%nat
          with 0%nat by (cbn [length] in *; lia).
        reflexivity.
      * destruct (length (1%R :: a0 :: a) - length (1%R :: b))%nat eqn:Hd;
          [cbn [length] in *; lia|].
        reflexivity.
Qed.

Lemma tf2ss_reachable_shape (m : ARMA R) :
  reachable m ->
  exists ss,
    signal.tf2ss (ma_poly m) (ar_poly m) = Ok ss
    /\ length (signal.ssB ss) = length (signal.ssA ss)
    /\ signal.ssD ss
       = if (length (as_sequence (phi m))
             <=? length (as_sequence (theta m)))%nat
         then 1 else 0.
Proof.
  intros Hm. destruct (reachable_array_lengths Hm) as (Hma & Har).
  destruct (reachable_shape Hm) as (b & a & Eb & Ea & Hlen).
  rewrite Eb, Ea in *. cbn [length] in Hma, Har.
  destruct (@tf2ss_head_one_shape b a Hlen) as (ss & Hss & Hwf & HD).
  exists ss. split; [exact Hss|]. split; [exact Hwf|]. rewrite HD.
  destruct (Nat.eqb_spec (length a) (length b)) as [Heq|Hne];
    destruct (Nat.leb_spec (length (as_sequence (phi m)))
                (length (as_sequence (theta m)))) as [Hle|Hgt];
    try reflexivity; lia.
Qed.

(** Both filter methods through the state-space form. *)
Lemma impulse_response_via (m : ARMA R) (ss : signal.StateSpace) (k : nat) :
  (1 <= k)%nat ->
  signal.tf2ss (ma_poly m) (ar_poly m) = Ok ss ->
  impulse_response m (S k)
  = Ok (signal.dlsim_loop ss (repeat 0 (length (signal.ssA ss)))
          (1 :: repeat 0 k)).
Proof.
  intros Hk Hss. unfold impulse_response.
  destruct k as [|k']; [lia|].
  now rewrite (@dimpulse_run _ _ _ k' Hss).
Qed.

Lemma simulation_via (m : ARMA R) (ss : signal.StateSpace) (k : nat)
  (g : RandomState) :
  signal.tf2ss (ma_poly m) (ar_poly m) = Ok ss ->
  fst (simulation m (S k) g)
  = Ok (signal.dlsim_loop ss (repeat 0 (length (signal.ssA ss)))
          (map (fun j => g j * sigma m) (seq 0 (S k)))).
Proof.
  intros Hss. rewrite simulation_eq. cbn [fst]. unfold signal.dlsim.
  rewrite Hss. reflexivity.
Qed.

(** X6: for every reachable model both filter methods succeed and return
    exactly as many values as asked for, [impulse_response] for a length of
    at least 2 and [simulation] for a length of at least 1: the padding of
    [ar_poly] keeps the conversion to state space from refusing the pair
    of arrays. *)
Theorem filter_methods_succeed (m : ARMA R) (n n' : nat) (g : RandomState) :
  reachable m -> (2 <= n)%nat -> (1 <= n')%nat ->
  (exists psi, impulse_response m n = Ok psi /\ length psi = n)
  /\ (exists vals, fst (simulation m n' g) = Ok vals /\ length vals = n').
Proof.
  intros Hm Hn Hn'. split.
  - now apply impulse_response_length.
  - now apply simulation_length.
Qed.

Lemma filter_methods_succeed_witness :
  let m := __init__ (np.sequence [1 / 2; 1 / 4]) (np.scalar (1 / 3)) 2 in
  reachable m /\ (2 <= 3)%nat /\ (1 <= 1)%nat
  /\ (exists psi, impulse_response m 3 = Ok psi /\ length psi = 3%nat)
  /\ (exists vals, fst (simulation m 1 ramp) = Ok vals
                   /\ length vals = 1%nat).
Proof.
  intros m.
  assert (Hm : reachable m) by apply reach_init.
  assert (H23 : (2 <= 3)%nat) by (repeat constructor).
  assert (H11 : (1 <= 1)%nat) by (repeat constructor).
  split; [exact Hm|]. split; [exact H23|]. split; [exact H11|].
  exact (@filter_methods_succeed m 3 1 ramp Hm H23 H11).
Defined.

(** X7: the first value of an impulse response of at least two values is
    1 when [phi] has at most as many coefficients as [theta], and 0 when it
    has more: the shorter [ma_poly] is then read as a polynomial of lower
    degree and the whole response is delayed. *)
Theorem impulse_response_first_value (m : ARMA R) (n : nat) :
  reachable m -> (2 <= n)%nat ->
  exists psi,
    impulse_response m n = Ok psi
    /\ nth 0 psi 0
       = if (length (as_sequence (phi m))
             <=? length (as_sequence (theta m)))%nat
         then 1 else 0.
Proof.
  intros Hm Hn. destruct n as [|k]; [lia|].
  destruct (tf2ss_reachable_shape Hm) as (ss & Hss & _ & HD).
  rewrite (@impulse_response_via m ss k) by (lia || exact Hss).
  eexists. split; [reflexivity|].
  cbn [signal.dlsim_loop nth]. rewrite dot_zeros_r, HD. ring.
Qed.

Lemma impulse_response_first_value_witness :
  let m := __init__ (np.sequence [1 / 2; 1 / 4]) (np.scalar (1 / 3)) 2 in
  reachable m /\ (2 <= 3)%nat
  /\ exists psi,
      impulse_response m 3 = Ok psi
      /\ nth 0 psi 0
         = if (length (as_sequence (phi m))
               <=? length (as_sequence (theta m)))%nat
           then 1 else 0.
Proof.
  intros m.
  assert (Hm : reachable m) by apply reach_init.
  assert (H13 : (2 <= 3)%nat) by (repeat constructor).
  split; [exact Hm|]. split; [exact H13|].
  exact (@impulse_response_first_value m 3 Hm H13).
Defined.

(** X8: an impulse response of at least two values is a prefix of every
    longer one. *)
Theorem impulse_response_prefix (m : ARMA R) (n n' : nat) :
  reachable m -> (2 <= n)%nat -> (n <= n')%nat ->
  exists psi',
    impulse_response m n' = Ok psi'
    /\ impulse_response m n = Ok (firstn n psi').
Proof.
  intros Hm Hn Hnn'.
  destruct n as [|k]; [lia|]. destruct n' as [|k']; [lia|].
  destruct (tf2ss_reachable_shape Hm) as (ss & Hss & _ & _).
  rewrite (@impulse_response_via m ss k'), (@impulse_response_via m ss k)
    by (lia || exact Hss).
  eexists. split; [reflexivity|]. f_equal.
  replace k' with (k + (k' - k))%nat by lia. rewrite repeat_app.
  change (1 :: repeat 0 k ++ repeat 0 (k' - k))
    with ((1 :: repeat 0 k) ++ repeat 0 (k' - k)).
  destruct (dlsim_loop_app ss (1 :: repeat 0 k) (repeat 0 (k' - k))
              (repeat 0 (length (signal.ssA ss)))) as [x' ->].
  rewrite firstn_app.
  rewrite dlsim_loop_length. cbn [length]. rewrite repeat_length.
  rewrite Nat.sub_diag, firstn_O, app_nil_r.
  rewrite firstn_all2; [reflexivity|].
  rewrite dlsim_loop_length. cbn [length]. now rewrite repeat_length.
Qed.

Lemma impulse_response_prefix_witness :
  let m := __init__ (np.sequence [1 / 2; 1 / 4]) (np.scalar (1 / 3)) 2 in
  reachable m /\ (2 <= 2)%nat /\ (2 <= 5)%nat
  /\ exists psi',
      impulse_response m 5 = Ok psi'
      /\ impulse_response m 2 = Ok (firstn 2 psi').
Proof.
  intros m.
  assert (Hm : reachable m) by apply reach_init.
  assert (H12 : (2 <= 2)%nat) by (repeat constructor).
  assert (H25 : (2 <= 5)%nat) by (repeat constructor).
  split; [exact Hm|]. split; [exact H12|]. split; [exact H25|].
  exact (@impulse_response_prefix m 2 5 Hm H12 H25).
Defined.

(** X9: in exact arithmetic a simulated path of at least two values is
    the convolution of the scaled shocks with the impulse response of the
    same length: value [t] is the sum over [j <= t] of
    [sigma * z_j * psi_(t-j)], where [z_j] is the [j]-th variate the
    generator delivers. *)
Theorem simulation_is_convolution (m : ARMA R) (n : nat) (g : RandomState) :
  reachable m -> (2 <= n)%nat ->
  exists psi vals,
    impulse_response m n = Ok psi
    /\ fst (simulation m n g) = Ok vals
    /\ forall t, (t < n)%nat ->
         nth t vals 0
         = Rsum (map (fun j => g j * sigma m * nth (t - j) psi 0)
                     (seq 0 (S t))).
Proof.
  intros Hm Hn. destruct n as [|k]; [lia|].
  destruct (tf2ss_reachable_shape Hm) as (ss & Hss & Hwf & _).
  rewrite (@impulse_response_via m ss k) by (lia || exact Hss).
  rewrite (@simulation_via m ss k g Hss).
  do 2 eexists. split; [reflexivity|]. split; [reflexivity|].
  intros t Ht.
  rewrite zero_state_convolution
    by (rewrite ?length_map, ?length_seq; assumption).
  f_equal. apply map_ext_in. intros j Hj. apply in_seq in Hj.
  rewrite (@impulse_nth_indep ss _ (t - j) k) by lia.
  f_equal.
  rewrite (nth_indep _ 0 ((fun i => g i * sigma m) 0%nat))
    by (rewrite length_map, length_seq; lia).
  rewrite (map_nth (fun i => g i * sigma m)), seq_nth by lia.
  reflexivity.
Qed.

Lemma simulation_is_convolution_witness :
  let m := __init__ (np.sequence [1 / 2; 1 / 4]) (np.scalar (1 / 3)) 2 in
  reachable m /\ (2 <= 3)%nat
  /\ exists psi vals,
      impulse_response m 3 = Ok psi
      /\ fst (simulation m 3 ramp) = Ok vals
      /\ forall t, (t < 3)%nat ->
           nth t vals 0
           = Rsum (map (fun j => ramp j * sigma m * nth (t - j) psi 0)
                       (seq 0 (S t))).
Proof.
  intros m.
  assert (Hm : reachable m) by apply reach_init.
  assert (H13 : (2 <= 3)%nat) by (repeat constructor).
  split; [exact Hm|]. split; [exact H13|].
  exact (@simulation_is_convolution m 3 ramp Hm H13).
Defined.

(** ** The frequency grid and the shape of the spectral density *)

Lemma INR_ratio_lt (k n : nat) (L : R) :
  (k < n)%nat -> 0 < L -> 0 <= INR k * (L / INR n) < L.
Proof.
  intros Hk HL.
  assert (Hn : 0 < INR n) by (apply lt_0_INR; lia).
  assert (Hk0 : 0 <= INR k) by apply pos_INR.
  assert (Hkn : INR k < INR n) by (now apply lt_INR).
  assert (Hq : 0 < L / INR n) by (now apply Rdiv_lt_0_compat).
  split; [apply Rmult_le_pos; lra|].
  replace L with (INR n * (L / INR n)) at 2 by (field; lra).
  apply Rmult_lt_compat_r; assumption.
Qed.

(** X10: with an integer [res] the two returned arrays have [res] entries,
    the [k]-th frequency is [k * lastpoint / res], and every frequency lies
    in [[0, lastpoint)], the end point [2 pi] (or [pi] when [two_pi] is
    false) excluded; with an array [res] the frequencies are returned as
    given, with one power value for each. *)
Theorem spectral_density_grid (m : ARMA R) (two_pi : bool) (n k : nat)
  (w : list R) :
  (k < n)%nat ->
  let lastpoint := if two_pi then 2 * PI else PI in
  let sd := spectral_density m two_pi (signal.worN_int n) in
  length (fst sd) = n
  /\ length (snd sd) = n
  /\ nth k (fst sd) 0 = INR k * (lastpoint / INR n)
  /\ 0 <= nth k (fst sd) 0 < lastpoint
  /\ fst (spectral_density m two_pi (signal.worN_array w)) = w
  /\ length (snd (spectral_density m two_pi (signal.worN_array w)))
     = length w.
Proof.
  intros Hk lastpoint sd.
  assert (Hgrid : nth k (fst sd) 0 = INR k * (lastpoint / INR n)).
  { unfold sd. rewrite spectral_density_frequencies. fold lastpoint.
    rewrite (nth_indep _ 0 ((fun i => INR i * (lastpoint / INR n)) 0%nat))
      by (now rewrite length_map, length_seq).
    now rewrite (map_nth (fun i => INR i * (lastpoint / INR n))), seq_nth. }
  assert (Hpos : 0 < lastpoint).
  { unfold lastpoint. pose proof PI_RGT_0. destruct two_pi; lra. }
  split.
  { unfold sd. rewrite spectral_density_frequencies.
    now rewrite length_map, length_seq. }
  split; [apply spectral_density_length|].
  split; [exact Hgrid|]. split.
  { rewrite Hgrid. now apply INR_ratio_lt. }
  rewrite spectral_density_eq. cbn [fst snd signal.freqz].
  split; [reflexivity | apply length_map].
Qed.

Lemma spectral_density_grid_witness :
  (2 < 4)%nat
  /\ let lastpoint := if false then 2 * PI else PI in
     let sd := spectral_density white_noise false (signal.worN_int 4) in
     length (fst sd) = 4%nat
     /\ length (snd sd) = 4%nat
     /\ nth 2 (fst sd) 0 = INR 2 * (lastpoint / INR 4)
     /\ 0 <= nth 2 (fst sd) 0 < lastpoint
     /\ fst (spectral_density white_noise false (signal.worN_array [0; 1]))
        = [0; 1]
     /\ length (snd (spectral_density white_noise false
                       (signal.worN_array [0; 1])))
        = length [0; 1].
Proof.
  assert (H24 : (2 < 4)%nat) by (repeat constructor).
  split; [exact H24|].
  exact (@spectral_density_grid white_noise false 4 2 [0; 1] H24).
Defined.

(** ** The spectral density at frequency zero *)

Lemma poly_eval_one (p : list R) :
  poly_eval p (mkC 1 0) = of_real (Rsum p).
Proof.
  induction p as [|c p IH]; [reflexivity|].
  cbn [poly_eval Rsum fold_right]. fold (Rsum p). rewrite IH.
  apply complex_eq; simpl; ring.
Qed.

Lemma Rsum_app (a b : list R) : Rsum (a ++ b) = Rsum a + Rsum b.
Proof.
  induction a as [|x a IH]; cbn [app Rsum fold_right].
  - fold (Rsum b). ring.
  - fold (Rsum (a ++ b)). fold (Rsum a). rewrite IH. ring.
Qed.

Lemma Rsum_repeat_zero (n : nat) : Rsum (repeat 0 n) = 0.
Proof.
  induction n as [|n IH]; cbn [repeat Rsum fold_right]; [reflexivity|].
  fold (Rsum (repeat 0 n)). rewrite IH. ring.
Qed.

Lemma Rsum_map_opp (l : list R) : Rsum (map Ropp l) = - Rsum l.
Proof.
  induction l as [|x l IH]; cbn [map Rsum fold_right]; [ring|].
  fold (Rsum (map Ropp l)). fold (Rsum l). rewrite IH. ring.
Qed.

Lemma Rsum_arrays (m : ARMA R) :
  reachable m ->
  Rsum (ma_poly m) = 1 + Rsum (as_sequence (theta m))
  /\ Rsum (ar_poly m) = 1 - Rsum (as_sequence (phi m)).
Proof.
  intros Hm.
  assert (Hma : ma_poly m = spec_ma_poly (_theta m)).
  { rewrite <- (reachable_fixed Hm) at 1. apply ma_poly_set_params. }
  assert (Har : ar_poly m = spec_ar_poly (_phi m) (_theta m)).
  { rewrite <- (reachable_fixed Hm) at 1. apply ar_poly_set_params. }
  rewrite Hma, Har. unfold spec_ar_poly, spec_ma_poly, phi, theta.
  rewrite pad_until_repeat by (simpl; lia).
  rewrite !Rsum_app. cbn [Rsum fold_right one negative zero R_dtype].
  fold (Rsum (as_sequence (_theta m))).
  fold (Rsum (map Ropp (as_sequence (_phi m)))).
  match goal with
  | |- context [Rsum (repeat 0 ?k)] => rewrite (Rsum_repeat_zero k)
  end.
  rewrite Rsum_map_opp. split; ring.
Qed.

(** X11: the power at frequency zero, the first value for an integer
    [res >= 1], is [sigma^2 * ((1 + sum(theta)) / (1 - sum(phi)))^2],
    provided [sum(phi)] is not 1. *)
Theorem spectral_density_at_zero (m : ARMA R) (two_pi : bool) (n : nat) :
  reachable m -> (1 <= n)%nat ->
  1 - Rsum (as_sequence (phi m)) <> 0 ->
  nth 0 (fst (spectral_density m two_pi (signal.worN_int n))) 0 = 0
  /\ nth 0 (snd (spectral_density m two_pi (signal.worN_int n))) C0
     = of_real (((1 + Rsum (as_sequence (theta m)))
                 / (1 - Rsum (as_sequence (phi m)))) ^ 2
                * sigma m ^ 2).
Proof.
  intros Hm Hn Hden. destruct (Rsum_arrays Hm) as (Hb & Ha).
  destruct n as [|k]; [lia|].
  rewrite spectral_density_eq. cbn [fst snd signal.freqz].
  unfold linspace_open. cbn [seq map nth INR].
  split; [ring|].
  rewrite freqz_at_transfer. unfold transfer.
  match goal with
  | |- context [Cexp_i ?x] =>
      replace (Cexp_i x) with (mkC 1 0)
        by (unfold Cexp_i; replace x with 0 by ring;
            now rewrite cos_0, sin_0)
  end.
  rewrite !poly_eval_one, Hb, Ha.
  apply complex_eq; simpl; field; exact Hden.
Qed.

Lemma spectral_density_at_zero_witness :
  let m := __init__ (np.scalar (1 / 2)) (np.scalar (1 / 4)) 2 in
  reachable m /\ (1 <= 3)%nat
  /\ 1 - Rsum (as_sequence (phi m)) <> 0
  /\ nth 0 (fst (spectral_density m true (signal.worN_int 3))) 0 = 0
  /\ nth 0 (snd (spectral_density m true (signal.worN_int 3))) C0
     = of_real (((1 + Rsum (as_sequence (theta m)))
                 / (1 - Rsum (as_sequence (phi m)))) ^ 2
                * sigma m ^ 2).
Proof.
  intros m.
  assert (Hm : reachable m) by apply reach_init.
  assert (H13 : (1 <= 3)%nat) by (repeat constructor).
  assert (Hden : 1 - Rsum (as_sequence (phi m)) <> 0).
  { unfold m. simpl. lra. }
  split; [exact Hm|]. split; [exact H13|]. split; [exact Hden|].
  exact (@spectral_density_at_zero m true 3 Hm H13 Hden).
Defined.

(** ** Symmetry of the spectral density over the full circle *)

Lemma poly_eval_conj (p : list R) (z : complex) :
  poly_eval p (conj z) = conj (poly_eval p z).
Proof.
  induction p as [|c p IH]; [apply complex_eq; simpl; ring|].
  cbn [poly_eval]. rewrite IH. apply complex_eq; simpl; ring.
Qed.

Lemma Cdiv_conj (x y : complex) :
  Cdiv (conj x) (conj y) = conj (Cdiv x y).
Proof.
  apply complex_eq; simpl;
    replace (real y * real y + - imag y * - imag y)
      with (real y * real y + imag y * imag y) by ring;
    unfold Rdiv; ring.
Qed.

Lemma Cnorm2_conj (z : complex) : Cnorm2 (conj z) = Cnorm2 z.
Proof. unfold Cnorm2; simpl; ring. Qed.

Lemma Cexp_i_neg (w : R) : Cexp_i (- w) = conj (Cexp_i w).
Proof. unfold Cexp_i, conj; simpl. now rewrite cos_neg, sin_neg. Qed.

Lemma Cexp_i_period (w : R) (k : nat) :
  Cexp_i (w + 2 * INR k * PI) = Cexp_i w.
Proof. unfold Cexp_i. now rewrite cos_period, sin_period. Qed.

(** The response at [2 pi k - w] is the conjugate of the response at
    [w]. *)
Lemma transfer_mirror (b a : list R) (w : R) (k : nat) :
  transfer b a (2 * INR k * PI - w) = conj (transfer b a w).
Proof.
  unfold transfer.
  replace (- (2 * INR k * PI - w)) with (- - w + - (2 * INR k * PI))
    by ring.
  assert (Hexp : Cexp_i (- - w + - (2 * INR k * PI)) = conj (Cexp_i (- w))).
  { rewrite <- (Cexp_i_period (- - w + - (2 * INR k * PI)) k).
    replace (- - w + - (2 * INR k * PI) + 2 * INR k * PI) with (- (- w))
      by ring.
    apply Cexp_i_neg. }
  rewrite Hexp, !poly_eval_conj. apply Cdiv_conj.
Qed.

Lemma power_at_mirror (m : ARMA R) (n k : nat) :
  (0 < k)%nat -> (k < n)%nat ->
  power_at m n (n - k) = power_at m n k.
Proof.
  intros Hk0 Hkn. unfold power_at. f_equal.
  assert (Hn : INR n <> 0) by (apply not_0_INR; lia).
  replace (INR (n - k) * (2 * PI / INR n))
    with (2 * INR 1 * PI - INR k * (2 * PI / INR n)).
  - now rewrite transfer_mirror, Cnorm2_conj.
  - rewrite minus_INR by lia. simpl. field. exact Hn.
Qed.

(** The [k]-th power value on the full circle. *)
Lemma spect_entry (m : ARMA R) (n k : nat) :
  (k < n)%nat ->
  nth k (snd (spectral_density m true (signal.worN_int n))) C0
  = of_real (power_at m n k).
Proof.
  intros Hk. rewrite spectral_density_eq.
  cbn [snd fst signal.freqz]. unfold linspace_open. rewrite map_map.
  match goal with
  | |- nth k (map ?F _) C0 = _ =>
      rewrite (nth_indep (map F (seq 0 n)) C0 (F 0%nat))
        by (now rewrite length_map, length_seq);
      rewrite (map_nth F), seq_nth by exact Hk
  end.
  cbv beta. rewrite freqz_at_transfer, Nat.add_0_l.
  destruct (power_entry
              (transfer (ma_poly m) (ar_poly m) (INR k * (2 * PI / INR n)))
              (sigma m)) as (Him & Hre & _).
  apply complex_eq; [exact Hre | exact Him].
Qed.

(** With [phi = 0] the denominator polynomial is the constant 1: the
    response has a value at every frequency. *)
Lemma white_noise_defined (t s w : R) :
  response_defined (ar_poly (__init__ (np.scalar 0) (np.scalar t) s)) w.
Proof.
  unfold response_defined.
  destruct (init_scalars 0 t s) as (_ & -> & _).
  rewrite polyval_rev. intros Hz.
  apply (f_equal real) in Hz. simpl in Hz. lra.
Qed.

Lemma white_noise_defined_on_grid (n : nat) : defined_on_grid white_noise n.
Proof. intros k _. apply white_noise_defined. Qed.

(** X12: in exact arithmetic, over the full circle the second half of the
    spectral density mirrors the first: the value at index [res - k]
    equals the value at index [k], when the response has a value at the
    [k]-th frequency. *)
Theorem spectral_density_mirror (m : ARMA R) (n k : nat) :
  (0 < k)%nat -> (k < n)%nat ->
  response_defined (ar_poly m) (INR k * (2 * PI / INR n)) ->
  nth (n - k) (snd (spectral_density m true (signal.worN_int n))) C0
  = nth k (snd (spectral_density m true (signal.worN_int n))) C0.
Proof.
  intros Hk0 Hkn _. rewrite !spect_entry by lia.
  now rewrite power_at_mirror.
Qed.

Lemma spectral_density_mirror_witness :
  (0 < 1)%nat /\ (1 < 4)%nat
  /\ response_defined (ar_poly white_noise) (INR 1 * (2 * PI / INR 4))
  /\ nth (4 - 1)
       (snd (spectral_density white_noise true (signal.worN_int 4))) C0
     = nth 1
         (snd (spectral_density white_noise true (signal.worN_int 4))) C0.
Proof.
  assert (H01 : (0 < 1)%nat) by (repeat constructor).
  assert (H14 : (1 < 4)%nat) by (repeat constructor).
  assert (Hdef : response_defined (ar_poly white_noise)
                   (INR 1 * (2 * PI / INR 4)))
    by apply white_noise_defined.
  split; [exact H01|]. split; [exact H14|]. split; [exact Hdef|].
  exact (@spectral_density_mirror white_noise 4 1 H01 H14 Hdef).
Defined.

(** ** What [autocovariance] computes *)

Lemma Rsum_rev (l : list R) : Rsum (rev l) = Rsum l.
Proof.
  induction l as [|x l IH]; [reflexivity|].
  cbn [rev]. rewrite Rsum_app, IH. cbn [Rsum fold_right].
  fold (Rsum l). ring.
Qed.

Lemma rev_seq_one (n : nat) :
  rev (seq 1 n) = map (fun k => (S n - k)%nat) (seq 1 n).
Proof.
  induction n as [|n IH]; [reflexivity|].
  rewrite seq_S at 1. rewrite rev_app_distr. cbn [rev app].
  rewrite IH. cbn [seq map]. f_equal; try lia.
  rewrite <- (seq_shift n 1), map_map. apply map_ext. intros k. lia.
Qed.

Lemma Rsum_map_neg {A : Type} (f : A -> R) (l : list A) :
  Rsum (map (fun x => - f x) l) = - Rsum (map f l).
Proof. rewrite <- Rsum_map_opp, map_map. reflexivity. Qed.

(** A sum whose terms cancel in pairs [k], [n + 1 - k]. *)
Lemma Rsum_antisymmetric (f : nat -> R) (n : nat) :
  (forall k, (1 <= k <= n)%nat -> f (S n - k)%nat = - f k) ->
  Rsum (map f (seq 1 n)) = 0.
Proof.
  intros Hf.
  assert (Hrev : Rsum (map f (seq 1 n)) = - Rsum (map f (seq 1 n))).
  { rewrite <- Rsum_rev at 1. rewrite <- map_rev, rev_seq_one, map_map.
    rewrite <- Rsum_map_neg. f_equal.
    apply map_ext_in. intros k Hk. apply in_seq in Hk. apply Hf. lia. }
  lra.
Qed.

Lemma sin_mirror (n j k : nat) :
  (k <= n)%nat -> (0 < n)%nat ->
  sin (2 * PI * INR j * INR (n - k) / INR n)
  = - sin (2 * PI * INR j * INR k / INR n).
Proof.
  intros Hk Hn. assert (Hn0 : INR n <> 0) by (apply not_0_INR; lia).
  rewrite <- sin_neg, <- (sin_period (- _) j). f_equal.
  rewrite minus_INR by exact Hk. field. exact Hn0.
Qed.

Lemma cos_mirror (n j k : nat) :
  (k <= n)%nat -> (0 < n)%nat ->
  cos (2 * PI * INR j * INR (n - k) / INR n)
  = cos (2 * PI * INR j * INR k / INR n).
Proof.
  intros Hk Hn. assert (Hn0 : INR n <> 0) by (apply not_0_INR; lia).
  rewrite <- (cos_neg (2 * PI * INR j * INR k / INR n)).
  rewrite <- (cos_period (- _) j). f_equal.
  rewrite minus_INR by exact Hk. field. exact Hn0.
Qed.

(** With mirrored weights the sine part of the transform vanishes. *)
Lemma sin_sum_zero (P : nat -> R) (n j : nat) :
  (forall k, (0 < k)%nat -> (k < n)%nat -> P (n - k)%nat = P k) ->
  Rsum (map (fun k => P k * sin (2 * PI * INR j * INR k / INR n))
            (seq 0 n)) = 0.
Proof.
  intros HP. destruct n as [|n]; [reflexivity|].
  cbn [seq map Rsum fold_right].
  fold (Rsum (map (fun k => P k * sin (2 * PI * INR j * INR k / INR (S n)))
                  (seq 1 n))).
  rewrite Rsum_antisymmetric.
  - replace (2 * PI * INR j * INR 0 / INR (S n)) with 0
      by (simpl; unfold Rdiv; ring).
    rewrite sin_0. ring.
  - intros k Hk. rewrite HP, sin_mirror by lia. ring.
Qed.

Lemma imag_Csum (l : list complex) :
  imag (Csum l) = Rsum (map imag l).
Proof.
  induction l as [|z l IH]; [reflexivity|].
  cbn [Csum fold_right map Rsum]. fold (Csum l). fold (Rsum (map imag l)).
  now rewrite <- IH.
Qed.

Lemma ifft_entry_imag (m : ARMA R) (j : nat) :
  imag (ifft_entry (default_spect m) j) = 0.
Proof.
  unfold ifft_entry. rewrite default_spect_length.
  cbn [imag Cmul of_real real]. rewrite imag_Csum, map_map.
  rewrite Rmult_0_l, Rplus_0_r.
  rewrite (map_ext_in _
             (fun k => power_at m default_res k
                       * sin (2 * PI * INR j * INR k / INR default_res))).
  - rewrite sin_sum_zero; [ring|].
    intros k Hk0 Hkn. now apply power_at_mirror.
  - intros k Hk. apply in_seq in Hk.
    destruct (@default_spect_entry m k) as (Hre & Him); [lia|].
    cbn [imag Cmul Cexp_i real]. rewrite Hre, Him. ring.
Qed.

(** X13: in exact arithmetic, for a model whose response has a value at
    each of the 1200 grid frequencies, the inverse transform that
    [autocovariance] takes the real part of is real already: each of its
    1200 entries has imaginary part zero. *)
Theorem ifft_of_spectrum_is_real (m : ARMA R) (j : nat) :
  defined_on_grid m default_res ->
  (j < default_res)%nat ->
  exists full,
    ifft (snd (spectral_density m true (signal.worN_int default_res)))
    = Ok full
    /\ length full = default_res
    /\ imag (nth j full C0) = 0.
Proof.
  intros _ Hj. fold (default_spect m).
  rewrite (ifft_nonempty (@default_spect_nonempty m)).
  eexists. split; [reflexivity|].
  split; [now rewrite inverse_dft_length, default_spect_length|].
  unfold inverse_dft. rewrite default_spect_length.
  rewrite (nth_indep _ C0 (ifft_entry (default_spect m) 0%nat))
    by (now rewrite length_map, length_seq).
  rewrite (map_nth (ifft_entry (default_spect m))), seq_nth by exact Hj.
  apply ifft_entry_imag.
Qed.

Lemma ifft_of_spectrum_is_real_witness :
  defined_on_grid white_noise default_res
  /\ (5 < default_res)%nat
  /\ exists full,
      ifft (snd (spectral_density white_noise true
                   (signal.worN_int default_res)))
      = Ok full
      /\ length full = default_res
      /\ imag (nth 5 full C0) = 0.
Proof.
  assert (H5 : (5 < default_res)%nat)
    by (apply Nat.ltb_lt; vm_compute; reflexivity).
  split; [apply white_noise_defined_on_grid|]. split; [exact H5|].
  exact (@ifft_of_spectrum_is_real white_noise 5
           (@white_noise_defined_on_grid default_res) H5).
Defined.

Lemma power_at_nonneg (m : ARMA R) (n k : nat) : 0 <= power_at m n k.
Proof.
  unfold power_at. apply Rmult_le_pos.
  - unfold Cnorm2. nra.
  - apply pow2_ge_0.
Qed.

Lemma Rsum_abs_le {A : Type} (f g : A -> R) (l : list A) :
  (forall x, In x l -> Rabs (f x) <= g x) ->
  Rabs (Rsum (map f l)) <= Rsum (map g l).
Proof.
  induction l as [|x l IH]; intros Hfg; cbn [map Rsum fold_right].
  - rewrite Rabs_R0. lra.
  - fold (Rsum (map f l)). fold (Rsum (map g l)).
    eapply Rle_trans; [apply Rabs_triang|].
    apply Rplus_le_compat.
    + apply Hfg. now left.
    + apply IH. intros y Hy. apply Hfg. now right.
Qed.

Lemma inv_default_res_pos : 0 < / INR default_res.
Proof. apply Rinv_0_lt_compat, lt_0_INR. unfold default_res. lia. Qed.

(** The autocovariance at lag 0 is the mean of the power values. *)
Lemma acov_entry_zero (m : ARMA R) :
  real (ifft_entry (default_spect m) 0)
  = / INR default_res
    * Rsum (map (fun k => power_at m default_res k) (seq 0 default_res)).
Proof.
  rewrite acov_entry. f_equal. f_equal. apply map_ext. intros k.
  replace (2 * PI * INR 0 * INR k / INR default_res) with 0
    by (simpl; unfold Rdiv; ring).
  rewrite cos_0. ring.
Qed.

Lemma acov_entry_bound (m : ARMA R) (j : nat) :
  0 <= real (ifft_entry (default_spect m) 0)
  /\ Rabs (real (ifft_entry (default_spect m) j))
     <= real (ifft_entry (default_spect m) 0).
Proof.
  pose proof inv_default_res_pos as Hinv.
  assert (Hle : Rabs (real (ifft_entry (default_spect m) j))
                <= real (ifft_entry (default_spect m) 0)).
  { rewrite acov_entry_zero, acov_entry.
    rewrite Rabs_mult, (Rabs_pos_eq (/ INR default_res)) by lra.
    apply Rmult_le_compat_l; [lra|].
    apply Rsum_abs_le. intros k _.
    rewrite Rabs_mult, (Rabs_pos_eq _ (power_at_nonneg m default_res k)).
    rewrite <- (Rmult_1_r (power_at m default_res k)) at 2.
    apply Rmult_le_compat_l; [apply power_at_nonneg|].
    apply Rabs_le. pose proof (COS_bound
      (2 * PI * INR j * INR k / INR default_res)). lra. }
  split; [|exact Hle].
  eapply Rle_trans; [apply Rabs_pos | exact Hle].
Qed.

(** The values [autocovariance] returns for a non-negative argument. *)
Lemma autocovariance_nth (m : ARMA R) (n : Z) (j : nat) :
  (0 <= n)%Z -> (j < Z.to_nat n)%nat -> (j < default_res)%nat ->
  exists acov,
    autocovariance m n = Ok acov
    /\ (j < length acov)%nat
    /\ nth j acov 0 = real (ifft_entry (default_spect m) j).
Proof.
  intros Hn Hj Hjr. rewrite autocovariance_eq, slice_to_nonneg by exact Hn.
  eexists. split; [reflexivity|]. split.
  - rewrite length_firstn, acov_full_length. lia.
  - rewrite nth_firstn.
    destruct (Nat.ltb_spec j (Z.to_nat n)) as [_|Hge]; [|lia].
    now apply acov_nth.
Qed.

(** X14: in exact arithmetic, for a model whose response has a value at
    each of the 1200 grid frequencies, the first autocovariance, the
    variance, is non-negative, and no autocovariance exceeds it in
    absolute value. *)
Theorem autocovariance_bounded_by_variance (m : ARMA R) (n : Z) (j : nat) :
  defined_on_grid m default_res ->
  (0 < n)%Z -> (j < Z.to_nat n)%nat -> (j < default_res)%nat ->
  exists acov,
    autocovariance m n = Ok acov
    /\ 0 <= nth 0 acov 0
    /\ Rabs (nth j acov 0) <= nth 0 acov 0.
Proof.
  intros _ Hn Hj Hjr.
  destruct (@autocovariance_nth m n j) as (acov & Hacov & _ & Hnj);
    [lia | exact Hj | exact Hjr |].
  destruct (@autocovariance_nth m n 0) as (acov0 & Hacov0 & _ & Hn0);
    [lia | lia | unfold default_res; lia |].
  rewrite Hacov in Hacov0. injection Hacov0 as <-.
  exists acov. split; [exact Hacov|].
  rewrite Hnj, Hn0. apply acov_entry_bound.
Qed.

Lemma autocovariance_bounded_by_variance_witness :
  defined_on_grid white_noise default_res
  /\ (0 < 16)%Z /\ (3 < Z.to_nat 16)%nat /\ (3 < default_res)%nat
  /\ exists acov,
      autocovariance white_noise 16 = Ok acov
      /\ 0 <= nth 0 acov 0
      /\ Rabs (nth 3 acov 0) <= nth 0 acov 0.
Proof.
  assert (H1 : (0 < 16)%Z) by reflexivity.
  assert (H2 : (3 < Z.to_nat 16)%nat)
    by (apply Nat.ltb_lt; vm_compute; reflexivity).
  assert (H3 : (3 < default_res)%nat)
    by (apply Nat.ltb_lt; vm_compute; reflexivity).
  split; [apply white_noise_defined_on_grid|].
  split; [exact H1|]. split; [exact H2|]. split; [exact H3|].
  exact (@autocovariance_bounded_by_variance white_noise 16 3
           (@white_noise_defined_on_grid default_res) H1 H2 H3).
Defined.

Lemma acov_entry_mirror (m : ARMA R) (j : nat) :
  (j <= default_res)%nat ->
  real (ifft_entry (default_spect m) (default_res - j))
  = real (ifft_entry (default_spect m) j).
Proof.
  intros Hj. rewrite !acov_entry. f_equal. f_equal.
  apply map_ext. intros k.
  assert (Hn0 : INR default_res <> 0)
    by (apply not_0_INR; unfold default_res; lia).
  f_equal.
  rewrite <- (cos_neg (2 * PI * INR j * INR k / INR default_res)).
  rewrite <- (cos_period (- _) k). f_equal.
  rewrite minus_INR by exact Hj. field. exact Hn0.
Qed.

(** X15: in exact arithmetic, for a model whose response has a value at
    each of the 1200 grid frequencies, [autocovariance] asked for all 1200
    values returns an array whose second half mirrors the first: the value
    at index [1200 - j] equals the value at index [j].  Only the first 600
    lags carry information, as the comment in the source requires of
    [num_autocov]. *)
Theorem autocovariance_mirror (m : ARMA R) (j : nat) :
  defined_on_grid m default_res ->
  (0 < j)%nat -> (j < default_res)%nat ->
  exists acov,
    autocovariance m (Z.of_nat default_res) = Ok acov
    /\ length acov = default_res
    /\ nth (default_res - j) acov 0 = nth j acov 0.
Proof.
  intros _ Hj0 Hj.
  rewrite autocovariance_eq, slice_to_nonneg by lia.
  rewrite Nat2Z.id.
  rewrite firstn_all2 by (rewrite acov_full_length; lia).
  eexists. split; [reflexivity|]. split; [apply acov_full_length|].
  rewrite !acov_nth by lia. apply acov_entry_mirror. lia.
Qed.

Lemma autocovariance_mirror_witness :
  defined_on_grid white_noise default_res
  /\ (0 < 7)%nat /\ (7 < default_res)%nat
  /\ exists acov,
      autocovariance white_noise (Z.of_nat default_res) = Ok acov
      /\ length acov = default_res
      /\ nth (default_res - 7) acov 0 = nth 7 acov 0.
Proof.
  assert (H1 : (0 < 7)%nat) by (apply Nat.ltb_lt; vm_compute; reflexivity).
  assert (H2 : (7 < default_res)%nat)
    by (apply Nat.ltb_lt; vm_compute; reflexivity).
  split; [apply white_noise_defined_on_grid|].
  split; [exact H1|]. split; [exact H2|].
  exact (@autocovariance_mirror white_noise 7
           (@white_noise_defined_on_grid default_res) H1 H2).
Defined.

(** ** White noise *)

Lemma cos_telescope (th : R) (n : nat) :
  2 * sin (th / 2) * Rsum (map (fun k => cos (th * INR k)) (seq 0 n))
  = sin ((INR n - 1 / 2) * th) + sin (th / 2).
Proof.
  induction n as [|n IH].
  - cbn [seq map Rsum fold_right INR].
    replace ((0 - 1 / 2) * th) with (- (th / 2)) by field.
    rewrite sin_neg. ring.
  - rewrite seq_S, map_app, Rsum_app. cbn [map Rsum fold_right Nat.add].
    rewrite Rmult_plus_distr_l, IH, S_INR.
    replace ((INR n + 1 - 1 / 2) * th) with (th * INR n + th / 2) by field.
    replace ((INR n - 1 / 2) * th) with (th * INR n - th / 2) by field.
    rewrite sin_plus, sin_minus. ring.
Qed.

(** The cosines at the multiples of a [n]-th of [j] full turns sum to
    zero. *)
Lemma cos_sum_zero (n j : nat) :
  (0 < j)%nat -> (j < n)%nat ->
  Rsum (map (fun k => cos (2 * PI * INR j * INR k / INR n)) (seq 0 n)) = 0.
Proof.
  intros Hj0 Hjn.
  assert (Hn : 0 < INR n) by (apply lt_0_INR; lia).
  assert (Hj : 0 < INR j) by (apply lt_0_INR; lia).
  assert (Hjn' : INR j < INR n) by (now apply lt_INR).
  pose proof PI_RGT_0 as Hpi.
  set (th := 2 * PI * INR j / INR n).
  rewrite (map_ext _ (fun k => cos (th * INR k)))
    by (intros k; f_equal; unfold th; field; lra).
  pose proof (cos_telescope th n) as Htel.
  assert (Hlast : sin ((INR n - 1 / 2) * th) = - sin (th / 2)).
  { rewrite <- sin_neg, <- (sin_period (- (th / 2)) j). f_equal.
    unfold th. field. lra. }
  assert (Hsin : 0 < sin (th / 2)).
  { apply sin_gt_0.
    - unfold th. apply Rdiv_lt_0_compat; [|lra].
      apply Rdiv_lt_0_compat; [|lra]. apply Rmult_lt_0_compat; lra.
    - unfold th.
      replace (2 * PI * INR j / INR n / 2) with (PI * (INR j / INR n))
        by (field; lra).
      rewrite <- (Rmult_1_r PI) at 2.
      apply Rmult_lt_compat_l; [lra|].
      apply Rmult_lt_reg_r with (INR n); [lra|].
      unfold Rdiv. rewrite Rmult_assoc, Rinv_l by lra. lra. }
  rewrite Hlast in Htel.
  assert (Hzero : 2 * sin (th / 2)
                  * Rsum (map (fun k => cos (th * INR k)) (seq 0 n)) = 0)
    by lra.
  apply Rmult_integral in Hzero. destruct Hzero as [Hz|Hz]; [lra | exact Hz].
Qed.

Lemma Rsum_scale {A : Type} (c : R) (f : A -> R) (l : list A) :
  Rsum (map (fun x => c * f x) l) = c * Rsum (map f l).
Proof.
  induction l as [|x l IH]; cbn [map Rsum fold_right]; [ring|].
  fold (Rsum (map (fun x => c * f x) l)). fold (Rsum (map f l)).
  rewrite IH. ring.
Qed.

Lemma Rsum_ones (n : nat) :
  Rsum (map (fun _ : nat => 1) (seq 0 n)) = INR n.
Proof.
  induction n as [|n IH]; [reflexivity|].
  rewrite seq_S, map_app, Rsum_app, IH, S_INR.
  cbn [map Rsum fold_right]. ring.
Qed.

(** White noise has a flat spectrum. *)
Lemma power_at_white_noise (s : R) (n k : nat) :
  power_at (__init__ (np.scalar 0) (np.scalar 0) s) n k = s ^ 2.
Proof.
  unfold power_at. destruct (init_scalars 0 0 s) as (-> & -> & ->).
  unfold transfer.
  set (z := Cexp_i (- (INR k * (2 * PI / INR n)))).
  assert (Hb : poly_eval [1; 0] z = of_real 1)
    by (apply complex_eq; simpl; ring).
  assert (Ha : poly_eval [1; - 0] z = of_real 1)
    by (apply complex_eq; simpl; ring).
  rewrite Hb, Ha. unfold Cnorm2. simpl. field.
Qed.

(** X16: for white noise, [phi = 0] and [theta = 0], the autocovariance is
    [sigma^2] at lag 0 and 0 at every other lag below 1200. *)
Theorem white_noise_autocovariance (s : R) (n : Z) (j : nat) :
  (0 < n)%Z -> (j < Z.to_nat n)%nat -> (j < default_res)%nat ->
  exists acov,
    autocovariance (__init__ (np.scalar 0) (np.scalar 0) s) n = Ok acov
    /\ nth j acov 0 = if (j =? 0)%nat then s ^ 2 else 0.
Proof.
  intros Hn Hj Hjr.
  destruct (@autocovariance_nth
              (__init__ (np.scalar 0) (np.scalar 0) s) n j)
    as (acov & Hacov & _ & Hnj); [lia | exact Hj | exact Hjr |].
  exists acov. split; [exact Hacov|].
  rewrite Hnj, acov_entry.
  rewrite (map_ext _
             (fun k => s ^ 2
                       * cos (2 * PI * INR j * INR k / INR default_res)))
    by (intros k; now rewrite power_at_white_noise).
  rewrite Rsum_scale.
  assert (Hn0 : INR default_res <> 0)
    by (apply not_0_INR; unfold default_res; lia).
  destruct (Nat.eqb_spec j 0) as [->|Hne].
  - rewrite (map_ext _ (fun _ : nat => 1)).
    + rewrite Rsum_ones. field. exact Hn0.
    + intros k.
      replace (2 * PI * INR 0 * INR k / INR default_res) with 0
        by (simpl; unfold Rdiv; ring).
      apply cos_0.
  - rewrite cos_sum_zero by lia. ring.
Qed.

Lemma white_noise_autocovariance_witness :
  (0 < 3)%Z /\ (1 < Z.to_nat 3)%nat /\ (1 < default_res)%nat
  /\ exists acov,
      autocovariance (__init__ (np.scalar 0) (np.scalar 0) 2) 3 = Ok acov
      /\ nth 1 acov 0 = if (1 =? 0)%nat then 2 ^ 2 else 0.
Proof.
  assert (H1 : (0 < 3)%Z) by reflexivity.
  assert (H2 : (1 < Z.to_nat 3)%nat)
    by (apply Nat.ltb_lt; vm_compute; reflexivity).
  assert (H3 : (1 < default_res)%nat)
    by (apply Nat.ltb_lt; vm_compute; reflexivity).
  split; [exact H1|]. split; [exact H2|]. split; [exact H3|].
  exact (@white_noise_autocovariance 2 3 1 H1 H2 H3).
Defined.

(** ** The plotting methods *)

(** One step of a plotting method at a time. *)
Ltac exec :=
  cbv beta iota zeta
      delta [bindP axes_to_draw_on show_if method record ret raise lift
             subplots subplots_grid simulation_call
             calls next_axes generator].

Lemma fold_min_spec (t : list R) (x : R) :
  let lo := fold_left (fun m y => if Rlt_dec y m then y else m) t x in
  lo <= x /\ forall y, In y t -> lo <= y.
Proof.
  revert x; induction t as [|z t IH]; intros x; cbn [fold_left].
  - split; [lra | intros y []].
  - destruct (Rlt_dec z x) as [Hlt|Hge].
    + destruct (IH z) as (Hz & Ht). split; [lra|].
      intros y [<-|Hy]; [exact Hz | now apply Ht].
    + destruct (IH x) as (Hx & Ht). split; [exact Hx|].
      intros y [<-|Hy]; [lra | now apply Ht].
Qed.

Lemma fold_max_spec (t : list R) (x : R) :
  let hi := fold_left (fun m y => if Rlt_dec m y then y else m) t x in
  x <= hi /\ forall y, In y t -> y <= hi.
Proof.
  revert x; induction t as [|z t IH]; intros x; cbn [fold_left].
  - split; [lra | intros y []].
  - destruct (Rlt_dec x z) as [Hlt|Hge].
    + destruct (IH z) as (Hz & Ht). split; [lra|].
      intros y [<-|Hy]; [exact Hz | now apply Ht].
    + destruct (IH x) as (Hx & Ht). split; [exact Hx|].
      intros y [<-|Hy]; [lra | now apply Ht].
Qed.

Lemma py_min_max_nonempty (l : list R) :
  l <> [] ->
  exists lo hi,
    py_min l = Ok lo /\ py_max l = Ok hi
    /\ forall y, In y l -> lo <= y <= hi.
Proof.
  destruct l as [|x t]; [congruence|]. intros _.
  do 2 eexists. split; [reflexivity|]. split; [reflexivity|].
  destruct (fold_min_spec t x) as (Hx & Ht).
  destruct (fold_max_spec t x) as (Hx' & Ht').
  intros y [<-|Hy]; split; auto.
Qed.

Lemma np_max_nonempty (l : list complex) :
  l <> [] -> exists top, np_max l = Ok top.
Proof. destruct l as [|x t]; [congruence|]. intros _. eexists. reflexivity. Qed.

(** The impulse-response panel drawn on given axes. *)
Lemma plot_impulse_response_on (m : ARMA R) (a : nat) (w : World) :
  reachable m ->
  exists psi lo hi,
    impulse_response m 30 = Ok psi
    /\ length psi = 30%nat
    /\ py_min psi = Ok lo /\ py_max psi = Ok hi
    /\ (forall y, In y psi -> lo <= y <= hi)
    /\ plot_impulse_response m (Some a) false w
       = (Returned tt,
          mkWorld
            (calls w
             ++ [ax_set_title a "Impulse response"%string;
                 ax_stem a (seq 0 30) psi;
                 ax_set_xlim_xmin a (- (1 / 2));
                 ax_set_ylim a (lo - 1 / 10) (hi + 1 / 10);
                 ax_set_xlabel a "time"%string;
                 ax_set_ylabel a "response"%string])
            (next_axes w) (generator w)).
Proof.
  intros Hm.
  destruct (@impulse_response_length m 30 Hm) as (psi & Hpsi & Hlen);
    [repeat constructor|].
  assert (Hne : psi <> []) by (intros ->; discriminate Hlen).
  destruct (py_min_max_nonempty Hne) as (lo & hi & Hlo & Hhi & Hbr).
  exists psi, lo, hi. repeat (split; [assumption|]).
  unfold plot_impulse_response. exec. rewrite Hpsi.
  exec. rewrite Hlo. exec. rewrite Hhi. exec.
  rewrite Hlen, <- !app_assoc. reflexivity.
Qed.

(** The spectral-density panel drawn on given axes. *)
Lemma plot_spectral_density_on (m : ARMA R) (a : nat) (w : World) :
  exists ws spect top,
    spectral_density m false (signal.worN_int default_res) = (ws, spect)
    /\ length ws = default_res /\ length spect = default_res
    /\ np_max spect = Ok top
    /\ plot_spectral_density m (Some a) false w
       = (Returned tt,
          mkWorld
            (calls w
             ++ [ax_set_title a "Spectral density"%string;
                 ax_semilogy a ws spect;
                 ax_set_xlim a 0 PI;
                 ax_set_ylim_complex a 0 top;
                 ax_set_xlabel a "frequency"%string;
                 ax_set_ylabel a "spectrum"%string])
            (next_axes w) (generator w)).
Proof.
  pose proof (spectral_density_length m false default_res) as Hlen.
  pose proof (spectral_density_frequencies m false default_res) as Hws.
  destruct (spectral_density m false (signal.worN_int default_res))
    as [ws spect] eqn:Hsd.
  cbn [fst snd] in Hlen, Hws.
  assert (Hne : spect <> []) by (intros ->; discriminate Hlen).
  destruct (np_max_nonempty Hne) as (top & Htop).
  exists ws, spect, top. split; [reflexivity|].
  split; [now rewrite Hws, length_map, length_seq|].
  split; [exact Hlen|]. split; [exact Htop|].
  unfold plot_spectral_density. exec. rewrite Hsd. exec. rewrite Htop. exec.
  rewrite <- !app_assoc. reflexivity.
Qed.

(** The autocovariance panel drawn on given axes. *)
Lemma plot_autocovariance_on (m : ARMA R) (a : nat) (w : World) :
  exists acov,
    autocovariance m 16 = Ok acov
    /\ length acov = 16%nat
    /\ plot_autocovariance m (Some a) false w
       = (Returned tt,
          mkWorld
            (calls w
             ++ [ax_set_title a "Autocovariance"%string;
                 ax_stem a (seq 0 16) acov;
                 ax_set_xlim a (- (1 / 2)) (INR 16 - 1 / 2);
                 ax_set_xlabel a "time"%string;
                 ax_set_ylabel a "autocovariance"%string])
            (next_axes w) (generator w)).
Proof.
  pose proof (autocovariance_eq m 16) as Hacov.
  rewrite slice_to_nonneg in Hacov by lia.
  set (acov := firstn (Z.to_nat 16)
                 (map real (inverse_dft (default_spect m)))) in Hacov.
  assert (Hlen : length acov = 16%nat).
  { unfold acov. rewrite length_firstn, acov_full_length.
    unfold default_res. reflexivity. }
  exists acov. split; [exact Hacov|]. split; [exact Hlen|].
  unfold plot_autocovariance. exec. rewrite Hacov. exec.
  rewrite Hlen, <- !app_assoc. reflexivity.
Qed.

(** The sample-path panel drawn on given axes: the generator moves on by
    90 variates. *)
Lemma plot_simulation_on (m : ARMA R) (a : nat) (w : World) :
  reachable m ->
  exists x_out,
    fst (simulation m 90 (generator w)) = Ok x_out
    /\ length x_out = 90%nat
    /\ plot_simulation m (Some a) false w
       = (Returned tt,
          mkWorld
            (calls w
             ++ [ax_set_title a "Sample path"%string;
                 ax_plot a x_out;
                 ax_set_xlabel a "time"%string;
                 ax_set_ylabel a "state space"%string])
            (next_axes w) (fun k => generator w (90 + k)%nat)).
Proof.
  intros Hm. destruct w as [cs n g]. cbn [calls next_axes generator].
  destruct (@simulation_length m 90 g Hm)
    as (x_out & Hsim & Hlen); [apply Nat.leb_le; reflexivity|].
  exists x_out. split; [exact Hsim|]. split; [exact Hlen|].
  pose proof (simulation_eq m 90 g) as Heq.
  destruct (simulation m 90 g) as [r g'] eqn:Hs.
  cbn [fst] in Hsim. subst r.
  injection Heq as _ Hg'.
  unfold plot_simulation. exec. rewrite Hs. exec.
  rewrite Hg', <- !app_assoc. reflexivity.
Qed.

(** The four methods with [show=True]: a new axes, the panel on it, and
    the figure shown. *)
Lemma plot_impulse_response_new_axes (m : ARMA R) (ax : option nat)
  (w : World) :
  reachable m ->
  exists psi lo hi,
    impulse_response m 30 = Ok psi
    /\ py_min psi = Ok lo /\ py_max psi = Ok hi
    /\ (forall y, In y psi -> lo <= y <= hi)
    /\ plot_impulse_response m ax true w
       = (Returned tt,
          mkWorld
            (calls w
             ++ [plt_subplots (next_axes w);
                 ax_set_title (next_axes w) "Impulse response"%string;
                 ax_stem (next_axes w) (seq 0 30) psi;
                 ax_set_xlim_xmin (next_axes w) (- (1 / 2));
                 ax_set_ylim (next_axes w) (lo - 1 / 10) (hi + 1 / 10);
                 ax_set_xlabel (next_axes w) "time"%string;
                 ax_set_ylabel (next_axes w) "response"%string;
                 plt_show])
            (S (next_axes w)) (generator w)).
Proof.
  intros Hm. destruct w as [cs a g]. cbn [calls next_axes generator].
  destruct (@impulse_response_length m 30 Hm) as (psi & Hpsi & Hlen);
    [repeat constructor|].
  assert (Hne : psi <> []) by (intros ->; discriminate Hlen).
  destruct (py_min_max_nonempty Hne) as (lo & hi & Hlo & Hhi & Hbr).
  exists psi, lo, hi. repeat (split; [assumption|]).
  unfold plot_impulse_response. exec. rewrite Hpsi.
  exec. rewrite Hlo. exec. rewrite Hhi. exec.
  rewrite Hlen, <- !app_assoc. reflexivity.
Qed.

Lemma plot_spectral_density_new_axes (m : ARMA R) (ax : option nat)
  (w : World) :
  exists ws spect top,
    spectral_density m false (signal.worN_int default_res) = (ws, spect)
    /\ np_max spect = Ok top
    /\ plot_spectral_density m ax true w
       = (Returned tt,
          mkWorld
            (calls w
             ++ [plt_subplots (next_axes w);
                 ax_set_title (next_axes w) "Spectral density"%string;
                 ax_semilogy (next_axes w) ws spect;
                 ax_set_xlim (next_axes w) 0 PI;
                 ax_set_ylim_complex (next_axes w) 0 top;
                 ax_set_xlabel (next_axes w) "frequency"%string;
                 ax_set_ylabel (next_axes w) "spectrum"%string;
                 plt_show])
            (S (next_axes w)) (generator w)).
Proof.
  destruct w as [cs a g]. cbn [calls next_axes generator].
  pose proof (spectral_density_length m false default_res) as Hlen.
  destruct (spectral_density m false (signal.worN_int default_res))
    as [ws spect] eqn:Hsd.
  cbn [fst snd] in Hlen.
  assert (Hne : spect <> []) by (intros ->; discriminate Hlen).
  destruct (np_max_nonempty Hne) as (top & Htop).
  exists ws, spect, top. split; [reflexivity|]. split; [exact Htop|].
  unfold plot_spectral_density. exec. rewrite Hsd. exec. rewrite Htop. exec.
  rewrite <- !app_assoc. reflexivity.
Qed.

Lemma plot_autocovariance_new_axes (m : ARMA R) (ax : option nat)
  (w : World) :
  exists acov,
    autocovariance m 16 = Ok acov
    /\ plot_autocovariance m ax true w
       = (Returned tt,
          mkWorld
            (calls w
             ++ [plt_subplots (next_axes w);
                 ax_set_title (next_axes w) "Autocovariance"%string;
                 ax_stem (next_axes w) (seq 0 16) acov;
                 ax_set_xlim (next_axes w) (- (1 / 2)) (INR 16 - 1 / 2);
                 ax_set_xlabel (next_axes w) "time"%string;
                 ax_set_ylabel (next_axes w) "autocovariance"%string;
                 plt_show])
            (S (next_axes w)) (generator w)).
Proof.
  destruct w as [cs a g]. cbn [calls next_axes generator].
  pose proof (autocovariance_eq m 16) as Hacov.
  rewrite slice_to_nonneg in Hacov by lia.
  set (acov := firstn (Z.to_nat 16)
                 (map real (inverse_dft (default_spect m)))) in Hacov.
  assert (Hlen : length acov = 16%nat).
  { unfold acov. rewrite length_firstn, acov_full_length.
    unfold default_res. reflexivity. }
  exists acov. split; [exact Hacov|].
  unfold plot_autocovariance. exec. rewrite Hacov. exec.
  rewrite Hlen, <- !app_assoc. reflexivity.
Qed.

Lemma plot_simulation_new_axes (m : ARMA R) (ax : option nat) (w : World) :
  reachable m ->
  exists x_out,
    fst (simulation m 90 (generator w)) = Ok x_out
    /\ plot_simulation m ax true w
       = (Returned tt,
          mkWorld
            (calls w
             ++ [plt_subplots (next_axes w);
                 ax_set_title (next_axes w) "Sample path"%string;
                 ax_plot (next_axes w) x_out;
                 ax_set_xlabel (next_axes w) "time"%string;
                 ax_set_ylabel (next_axes w) "state space"%string;
                 plt_show])
            (S (next_axes w)) (fun k => generator w (90 + k)%nat)).
Proof.
  intros Hm. destruct w as [cs a g]. cbn [calls next_axes generator].
  destruct (@simulation_length m 90 g Hm)
    as (x_out & Hsim & Hlen); [apply Nat.leb_le; reflexivity|].
  exists x_out. split; [exact Hsim|].
  pose proof (simulation_eq m 90 g) as Heq.
  destruct (simulation m 90 g) as [r g'] eqn:Hs.
  cbn [fst] in Hsim. subst r.
  injection Heq as _ Hg'.
  unfold plot_simulation. exec. rewrite Hs. exec.
  rewrite Hg', <- !app_assoc. reflexivity.
Qed.

(** X17: on a reachable model, a plotting method called with
    [show=False] and no axes fails on its first use of [ax], before
    anything is computed, drawn or drawn from the generator; called with
    [show=True] it does not use the [ax] it is given: it creates a new
    axes, makes all the calls of its panel on that axes and shows the
    figure. *)
Theorem plot_arguments (m : ARMA R) (ax : option nat) (w : World) :
  reachable m ->
  let a := next_axes w in
  (plot_impulse_response m None false w = (Raised AttributeError, w)
   /\ plot_spectral_density m None false w = (Raised AttributeError, w)
   /\ plot_autocovariance m None false w = (Raised AttributeError, w)
   /\ plot_simulation m None false w = (Raised AttributeError, w))
  /\ exists psi lo hi ws spect top acov x_out,
      impulse_response m 30 = Ok psi
      /\ py_min psi = Ok lo /\ py_max psi = Ok hi
      /\ spectral_density m false (signal.worN_int default_res)
         = (ws, spect)
      /\ np_max spect = Ok top
      /\ autocovariance m 16 = Ok acov
      /\ fst (simulation m 90 (generator w)) = Ok x_out
      /\ plot_impulse_response m ax true w
         = (Returned tt,
            mkWorld
              (calls w
               ++ [plt_subplots a;
                   ax_set_title a "Impulse response"%string;
                   ax_stem a (seq 0 30) psi;
                   ax_set_xlim_xmin a (- (1 / 2));
                   ax_set_ylim a (lo - 1 / 10) (hi + 1 / 10);
                   ax_set_xlabel a "time"%string;
                   ax_set_ylabel a "response"%string;
                   plt_show])
              (S a) (generator w))
      /\ plot_spectral_density m ax true w
         = (Returned tt,
            mkWorld
              (calls w
               ++ [plt_subplots a;
                   ax_set_title a "Spectral density"%string;
                   ax_semilogy a ws spect;
                   ax_set_xlim a 0 PI;
                   ax_set_ylim_complex a 0 top;
                   ax_set_xlabel a "frequency"%string;
                   ax_set_ylabel a "spectrum"%string;
                   plt_show])
              (S a) (generator w))
      /\ plot_autocovariance m ax true w
         = (Returned tt,
            mkWorld
              (calls w
               ++ [plt_subplots a;
                   ax_set_title a "Autocovariance"%string;
                   ax_stem a (seq 0 16) acov;
                   ax_set_xlim a (- (1 / 2)) (INR 16 - 1 / 2);
                   ax_set_xlabel a "time"%string;
                   ax_set_ylabel a "autocovariance"%string;
                   plt_show])
              (S a) (generator w))
      /\ plot_simulation m ax true w
         = (Returned tt,
            mkWorld
              (calls w
               ++ [plt_subplots a;
                   ax_set_title a "Sample path"%string;
                   ax_plot a x_out;
                   ax_set_xlabel a "time"%string;
                   ax_set_ylabel a "state space"%string;
                   plt_show])
              (S a) (fun k => generator w (90 + k)%nat)).
Proof.
  intros Hm a. split.
  - unfold plot_impulse_response, plot_spectral_density,
      plot_autocovariance, plot_simulation.
    exec. repeat split.
  - destruct (@plot_impulse_response_new_axes m ax w Hm)
      as (psi & lo & hi & Hpsi & Hlo & Hhi & _ & Hrun1).
    destruct (plot_spectral_density_new_axes m ax w)
      as (ws & spect & top & Hsd & Htop & Hrun2).
    destruct (plot_autocovariance_new_axes m ax w) as (acov & Hacov & Hrun3).
    destruct (@plot_simulation_new_axes m ax w Hm)
      as (x_out & Hsim & Hrun4).
    exists psi, lo, hi, ws, spect, top, acov, x_out.
    repeat (split; [assumption|]). exact Hrun4.
Qed.

Lemma plot_arguments_witness :
  let m := white_noise in
  let ax := Some 7%nat in
  let w := mkWorld [] 0 ramp in
  reachable m
  /\ let a := next_axes w in
     (plot_impulse_response m None false w = (Raised AttributeError, w)
      /\ plot_spectral_density m None false w = (Raised AttributeError, w)
      /\ plot_autocovariance m None false w = (Raised AttributeError, w)
      /\ plot_simulation m None false w = (Raised AttributeError, w))
     /\ exists psi lo hi ws spect top acov x_out,
         impulse_response m 30 = Ok psi
         /\ py_min psi = Ok lo /\ py_max psi = Ok hi
         /\ spectral_density m false (signal.worN_int default_res)
            = (ws, spect)
         /\ np_max spect = Ok top
         /\ autocovariance m 16 = Ok acov
         /\ fst (simulation m 90 (generator w)) = Ok x_out
         /\ plot_impulse_response m ax true w
            = (Returned tt,
               mkWorld
                 (calls w
                  ++ [plt_subplots a;
                      ax_set_title a "Impulse response"%string;
                      ax_stem a (seq 0 30) psi;
                      ax_set_xlim_xmin a (- (1 / 2));
                      ax_set_ylim a (lo - 1 / 10) (hi + 1 / 10);
                      ax_set_xlabel a "time"%string;
                      ax_set_ylabel a "response"%string;
                      plt_show])
                 (S a) (generator w))
         /\ plot_spectral_density m ax true w
            = (Returned tt,
               mkWorld
                 (calls w
                  ++ [plt_subplots a;
                      ax_set_title a "Spectral density"%string;
                      ax_semilogy a ws spect;
                      ax_set_xlim a 0 PI;
                      ax_set_ylim_complex a 0 top;
                      ax_set_xlabel a "frequency"%string;
                      ax_set_ylabel a "spectrum"%string;
                      plt_show])
                 (S a) (generator w))
         /\ plot_autocovariance m ax true w
            = (Returned tt,
               mkWorld
                 (calls w
                  ++ [plt_subplots a;
                      ax_set_title a "Autocovariance"%string;
                      ax_stem a (seq 0 16) acov;
                      ax_set_xlim a (- (1 / 2)) (INR 16 - 1 / 2);
                      ax_set_xlabel a "time"%string;
                      ax_set_ylabel a "autocovariance"%string;
                      plt_show])
                 (S a) (generator w))
         /\ plot_simulation m ax true w
            = (Returned tt,
               mkWorld
                 (calls w
                  ++ [plt_subplots a;
                      ax_set_title a "Sample path"%string;
                      ax_plot a x_out;
                      ax_set_xlabel a "time"%string;
                      ax_set_ylabel a "state space"%string;
                      plt_show])
                 (S a) (fun k => generator w (90 + k)%nat)).
Proof.
  intros m ax w.
  assert (Hm : reachable m) by apply reach_init.
  split; [exact Hm|].
  exact (@plot_arguments m ax w Hm).
Defined.

(** X18: on a reachable model [quad_plot] returns normally after making
    exactly these calls: one figure with a 2 x 2 grid of new axes, the
    spacing adjustment, the four panels in the order impulse response,
    spectral density, autocovariance, sample path, each on its own axes and
    drawn from the method's default arguments, and one [plt.show()] at the
    end.  It draws 90 variates from the global generator. *)
Theorem quad_plot_calls (m : ARMA R) (w : World) :
  reachable m ->
  let a := next_axes w in
  exists psi lo hi ws spect top acov x_out,
    impulse_response m 30 = Ok psi
    /\ py_min psi = Ok lo /\ py_max psi = Ok hi
    /\ spectral_density m false (signal.worN_int default_res) = (ws, spect)
    /\ np_max spect = Ok top
    /\ autocovariance m 16 = Ok acov
    /\ fst (simulation m 90 (generator w)) = Ok x_out
    /\ quad_plot m w
       = (Returned tt,
          mkWorld
            (calls w
             ++ [plt_subplots_grid 2 2 (12, 8) [a; a + 1; a + 2; a + 3]%nat;
                 plt_subplots_adjust (4 / 10);
                 ax_set_title a "Impulse response"%string;
                 ax_stem a (seq 0 30) psi;
                 ax_set_xlim_xmin a (- (1 / 2));
                 ax_set_ylim a (lo - 1 / 10) (hi + 1 / 10);
                 ax_set_xlabel a "time"%string;
                 ax_set_ylabel a "response"%string;
                 ax_set_title (a + 1) "Spectral density"%string;
                 ax_semilogy (a + 1) ws spect;
                 ax_set_xlim (a + 1) 0 PI;
                 ax_set_ylim_complex (a + 1) 0 top;
                 ax_set_xlabel (a + 1) "frequency"%string;
                 ax_set_ylabel (a + 1) "spectrum"%string;
                 ax_set_title (a + 2) "Autocovariance"%string;
                 ax_stem (a + 2) (seq 0 16) acov;
                 ax_set_xlim (a + 2) (- (1 / 2)) (INR 16 - 1 / 2);
                 ax_set_xlabel (a + 2) "time"%string;
                 ax_set_ylabel (a + 2) "autocovariance"%string;
                 ax_set_title (a + 3) "Sample path"%string;
                 ax_plot (a + 3) x_out;
                 ax_set_xlabel (a + 3) "time"%string;
                 ax_set_ylabel (a + 3) "state space"%string;
                 plt_show])
            (a + 4) (fun k => generator w (90 + k)%nat)).
Proof.
  intros Hm. destruct w as [cs a g]. cbn [calls next_axes generator].
  cbv zeta. unfold quad_plot. exec.
  change (seq a (2 * 2)) with [a; S a; S (S a); S (S (S a))].
  cbn [plot_each]. exec.
  match goal with
  | |- context [plot_impulse_response m (Some a) false ?W] =>
      destruct (@plot_impulse_response_on m a W Hm)
        as (psi & lo & hi & Hpsi & _ & Hlo & Hhi & _ & ->)
  end.
  exec.
  match goal with
  | |- context [plot_spectral_density m (Some (S a)) false ?W] =>
      destruct (@plot_spectral_density_on m (S a) W)
        as (ws & spect & top & Hsd & _ & _ & Htop & ->)
  end.
  exec.
  match goal with
  | |- context [plot_autocovariance m (Some (S (S a))) false ?W] =>
      destruct (@plot_autocovariance_on m (S (S a)) W)
        as (acov & Hacov & _ & ->)
  end.
  exec.
  match goal with
  | |- context [plot_simulation m (Some (S (S (S a)))) false ?W] =>
      destruct (@plot_simulation_on m (S (S (S a))) W Hm)
        as (x_out & Hsim & _ & ->)
  end.
  exec. cbn [generator] in Hsim.
  exists psi, lo, hi, ws, spect, top, acov, x_out.
  repeat (split; [assumption|]).
  rewrite <- !app_assoc. cbn [app].
  replace (a + 1)%nat with (S a) by lia.
  replace (a + 2)%nat with (S (S a)) by lia.
  replace (a + 3)%nat with (S (S (S a))) by lia.
  replace (a + 2 * 2)%nat with (a + 4)%nat by reflexivity.
  reflexivity.
Qed.

Lemma quad_plot_calls_witness :
  let m := white_noise in
  let w := mkWorld [] 0 ramp in
  reachable m
  /\ let a := next_axes w in
     exists psi lo hi ws spect top acov x_out,
       impulse_response m 30 = Ok psi
       /\ py_min psi = Ok lo /\ py_max psi = Ok hi
       /\ spectral_density m false (signal.worN_int default_res)
          = (ws, spect)
       /\ np_max spect = Ok top
       /\ autocovariance m 16 = Ok acov
       /\ fst (simulation m 90 (generator w)) = Ok x_out
       /\ quad_plot m w
          = (Returned tt,
             mkWorld
               (calls w
                ++ [plt_subplots_grid 2 2 (12, 8)
                      [a; a + 1; a + 2; a + 3]%nat;
                    plt_subplots_adjust (4 / 10);
                    ax_set_title a "Impulse response"%string;
                    ax_stem a (seq 0 30) psi;
                    ax_set_xlim_xmin a (- (1 / 2));
                    ax_set_ylim a (lo - 1 / 10) (hi + 1 / 10);
                    ax_set_xlabel a "time"%string;
                    ax_set_ylabel a "response"%string;
                    ax_set_title (a + 1) "Spectral density"%string;
                    ax_semilogy (a + 1) ws spect;
                    ax_set_xlim (a + 1) 0 PI;
                    ax_set_ylim_complex (a + 1) 0 top;
                    ax_set_xlabel (a + 1) "frequency"%string;
                    ax_set_ylabel (a + 1) "spectrum"%string;
                    ax_set_title (a + 2) "Autocovariance"%string;
                    ax_stem (a + 2) (seq 0 16) acov;
                    ax_set_xlim (a + 2) (- (1 / 2)) (INR 16 - 1 / 2);
                    ax_set_xlabel (a + 2) "time"%string;
                    ax_set_ylabel (a + 2) "autocovariance"%string;
                    ax_set_title (a + 3) "Sample path"%string;
                    ax_plot (a + 3) x_out;
                    ax_set_xlabel (a + 3) "time"%string;
                    ax_set_ylabel (a + 3) "state space"%string;
                    plt_show])
               (a + 4) (fun k => generator w (90 + k)%nat)).
Proof.
  intros m w.
  assert (Hm : reachable m) by apply reach_init.
  split; [exact Hm|].
  exact (@quad_plot_calls m w Hm).
Defined.

(** X19: in exact arithmetic, with [show=True] [plot_impulse_response]
    creates one new axes, stems the 30 values of [impulse_response()] at
    [0, ..., 29] on it, labels it and shows the figure; the y-limits are
    0.1 below [min(yi)] and 0.1 above [max(yi)], and every plotted value
    lies between [min(yi)] and [max(yi)]. *)
Theorem plot_impulse_response_shown (m : ARMA R) (ax : option nat)
  (w : World) :
  reachable m ->
  let a := next_axes w in
  exists psi lo hi,
    impulse_response m 30 = Ok psi
    /\ py_min psi = Ok lo /\ py_max psi = Ok hi
    /\ plot_impulse_response m ax true w
       = (Returned tt,
          mkWorld
            (calls w
             ++ [plt_subplots a;
                 ax_set_title a "Impulse response"%string;
                 ax_stem a (seq 0 30) psi;
                 ax_set_xlim_xmin a (- (1 / 2));
                 ax_set_ylim a (lo - 1 / 10) (hi + 1 / 10);
                 ax_set_xlabel a "time"%string;
                 ax_set_ylabel a "response"%string;
                 plt_show])
            (S a) (generator w))
    /\ forall y, In y psi -> lo <= y <= hi.
Proof.
  intros Hm a.
  destruct (@plot_impulse_response_new_axes m ax w Hm)
    as (psi & lo & hi & Hpsi & Hlo & Hhi & Hbr & Hrun).
  exists psi, lo, hi. repeat (split; [assumption|]). exact Hbr.
Qed.

Lemma plot_impulse_response_shown_witness :
  let m := white_noise in
  let w := mkWorld [] 0 ramp in
  reachable m
  /\ let a := next_axes w in
     exists psi lo hi,
       impulse_response m 30 = Ok psi
       /\ py_min psi = Ok lo /\ py_max psi = Ok hi
       /\ plot_impulse_response m None true w
          = (Returned tt,
             mkWorld
               (calls w
                ++ [plt_subplots a;
                    ax_set_title a "Impulse response"%string;
                    ax_stem a (seq 0 30) psi;
                    ax_set_xlim_xmin a (- (1 / 2));
                    ax_set_ylim a (lo - 1 / 10) (hi + 1 / 10);
                    ax_set_xlabel a "time"%string;
                    ax_set_ylabel a "response"%string;
                    plt_show])
               (S a) (generator w))
       /\ forall y, In y psi -> lo <= y <= hi.
Proof.
  intros m w.
  assert (Hm : reachable m) by apply reach_init.
  split; [exact Hm|].
  exact (@plot_impulse_response_shown m None w Hm).
Defined.

(** ** The role of [sigma] *)

(** X20: in exact arithmetic, for any [two_pi] and [res], the frequencies
    of the spectral density do not depend on [sigma] and each power value
    is [sigma^2] times the power value of the same model with
    [sigma = 1]; a simulated path is [sigma] times the path of the same
    model with [sigma = 1] on the same variates. *)
Theorem sigma_scales (m : ARMA R) (s : R) (two_pi : bool)
  (res : signal.worN_arg) (n : nat) (g : RandomState) :
  reachable m -> (1 <= n)%nat ->
  fst (spectral_density (sigma_assign m s) two_pi res)
  = fst (spectral_density (sigma_assign m 1) two_pi res)
  /\ snd (spectral_density (sigma_assign m s) two_pi res)
     = map (Cmul (of_real (s ^ 2)))
           (snd (spectral_density (sigma_assign m 1) two_pi res))
  /\ exists vals,
       fst (simulation (sigma_assign m 1) n g) = Ok vals
       /\ fst (simulation (sigma_assign m s) n g)
          = Ok (map (Rmult s) vals).
Proof.
  intros Hm Hn. split; [|split].
  - now rewrite !spectral_density_eq.
  - rewrite !spectral_density_eq. cbn [snd fst sigma_assign ma_poly ar_poly sigma].
    rewrite map_map. apply map_ext. intros w.
    apply complex_eq; simpl; ring.
  - destruct (tf2ss_reachable Hm) as [ss Hss].
    destruct n as [|n']; [lia|].
    rewrite (@simulation_via (sigma_assign m 1) ss n' g Hss).
    rewrite (@simulation_via (sigma_assign m s) ss n' g Hss).
    eexists. split; [reflexivity|]. f_equal.
    cbn [sigma_assign sigma].
    fold (signal.vec_scale s
            (signal.dlsim_loop ss (repeat 0 (length (signal.ssA ss)))
               (map (fun j => g j * 1) (seq 0 (S n'))))).
    rewrite <- dlsim_loop_scale, vec_scale_zeros. f_equal.
    unfold signal.vec_scale. rewrite map_map.
    apply map_ext. intros j. ring.
Qed.

Lemma sigma_scales_witness :
  let m := __init__ (np.scalar (1 / 2)) (np.scalar (1 / 4)) 1 in
  reachable m /\ (1 <= 3)%nat
  /\ fst (spectral_density (sigma_assign m 5) false (signal.worN_int 3))
     = fst (spectral_density (sigma_assign m 1) false (signal.worN_int 3))
  /\ snd (spectral_density (sigma_assign m 5) false (signal.worN_int 3))
     = map (Cmul (of_real (5 ^ 2)))
           (snd (spectral_density (sigma_assign m 1) false
                   (signal.worN_int 3)))
  /\ exists vals,
       fst (simulation (sigma_assign m 1) 3 ramp) = Ok vals
       /\ fst (simulation (sigma_assign m 5) 3 ramp)
          = Ok (map (Rmult 5) vals).
Proof.
  intros m.
  assert (Hm : reachable m) by apply reach_init.
  assert (H13 : (1 <= 3)%nat) by (repeat constructor).
  split; [exact Hm|]. split; [exact H13|].
  exact (@sigma_scales m 5 false (signal.worN_int 3) 3 ramp Hm H13).
Defined.

(** ** The spectral density, value by value *)





(** ** Simulation and the global generator *)

Lemma simulation_call_eq (m : ARMA R) (n : nat) (w : World) :
  simulation_call m n w
  = (match signal.dlsim (ma_poly m) (ar_poly m)
             (map (fun k => generator w k * sigma m) (seq 0 n)) with
     | Ok vals => Returned vals
     | Raise e => Raised (LibraryError e)
     end,
     mkWorld (calls w) (next_axes w) (fun k => generator w (n + k)%nat)).
Proof.
  unfold simulation_call. rewrite simulation_eq.
  destruct (signal.dlsim (ma_poly m) (ar_poly m)
              (map (fun k => generator w k * sigma m) (seq 0 n)));
    reflexivity.
Qed.

(** One period of white noise with [sigma = 1] is the variate drawn. *)
Lemma simulation_call_white_noise_one (w : World) :
  fst (simulation_call white_noise 1 w) = Returned [generator w 0%nat].
Proof.
  rewrite simulation_call_eq. cbn [fst seq map].
  destruct (init_scalars 0 0 1) as (Hma & Har & Hs).
  fold white_noise in Hma, Har, Hs. rewrite Hma, Har, Hs.
  unfold signal.dlsim. rewrite tf2ss_scalars.
  cbn [bind signal.ssA length np.zeros repeat zero R_dtype
       signal.dlsim_loop signal.ssB signal.ssC signal.ssD
       signal.dot signal.mat_vec signal.vec_add signal.vec_scale map].
  f_equal. f_equal. ring.
Qed.

(** With the same model and the same length, the only arguments of the
    method, the output follows the state of the global generator. *)
Lemma simulation_depends_on_global_state :
  let w1 := mkWorld [] 0 ramp in
  let w2 := mkWorld [] 0 (fun k => INR k + 1) in
  fst (simulation_call white_noise 1 w1) = Returned [0]
  /\ fst (simulation_call white_noise 1 w2) = Returned [1]
  /\ fst (simulation_call white_noise 1 w1)
     <> fst (simulation_call white_noise 1 w2).
Proof.
  cbv zeta. rewrite !simulation_call_white_noise_one.
  cbn [generator]. unfold ramp. cbn [INR].
  replace (0 + 1) with 1 by ring.
  repeat split. intros Heq. injection Heq as Heq. lra.
Qed.

(** C4, as the code has it: [simulation] has the model and the length as
    its only arguments.  It draws the next [ts_length] variates of the
    global generator of [np.random], scales them by [sigma] and filters
    them, and leaves the global generator advanced by [ts_length]
    variates; two calls at which the global generator delivers the same
    [ts_length] variates return the same output. *)
Theorem simulation_reads_global_generator (m : ARMA R) (n : nat)
  (w w' : World) :
  (forall k, (k < n)%nat -> generator w k = generator w' k) ->
  fst (simulation_call m n w)
  = match signal.dlsim (ma_poly m) (ar_poly m)
            (map (fun k => generator w k * sigma m) (seq 0 n)) with
    | Ok vals => Returned vals
    | Raise e => Raised (LibraryError e)
    end
  /\ snd (simulation_call m n w)
     = mkWorld (calls w) (next_axes w) (fun k => generator w (n + k)%nat)
  /\ fst (simulation_call m n w) = fst (simulation_call m n w').
Proof.
  intros Hg. rewrite !simulation_call_eq. cbn [fst snd].
  repeat split.
  rewrite (map_ext_in (fun k => generator w k * sigma m)
             (fun k => generator w' k * sigma m)); [reflexivity|].
  intros k Hk. apply in_seq in Hk. rewrite Hg by lia. reflexivity.
Qed.

Lemma simulation_reads_global_generator_witness :
  let w := mkWorld [] 0 ramp in
  let w' := mkWorld [plt_show] 3
              (fun k => if (k <? 2)%nat then INR k else 7) in
  (forall k, (k < 2)%nat -> generator w k = generator w' k)
  /\ fst (simulation_call white_noise 2 w)
     = match signal.dlsim (ma_poly white_noise) (ar_poly white_noise)
               (map (fun k => generator w k * sigma white_noise)
                    (seq 0 2)) with
       | Ok vals => Returned vals
       | Raise e => Raised (LibraryError e)
       end
  /\ snd (simulation_call white_noise 2 w)
     = mkWorld (calls w) (next_axes w) (fun k => generator w (2 + k)%nat)
  /\ fst (simulation_call white_noise 2 w)
     = fst (simulation_call white_noise 2 w').
Proof.
  intros w w'.
  assert (Hsame : forall k, (k < 2)%nat -> generator w k = generator w' k).
  { intros k Hk. unfold w, w', ramp. cbn [generator].
    destruct (Nat.ltb_spec k 2) as [_|Hge]; [reflexivity|].
    exfalso. exact (proj1 (Nat.lt_nge k 2) Hk Hge). }
  split; [exact Hsame|].
  exact (@simulation_reads_global_generator white_noise 2 w w' Hsame).
Defined.
